(** * IP-Trie-Database: the integer-keyed binary trie of [trie.c]

    A shallow embedding of the trie ADT ([trie.h] / [trie.c]) and the
    properties its specification states about it.

    Conventions of the embedding:
    - [ikey_t] ([unsigned int], 32 bits) and [size_t] (64 bits, LP64) are
      integers in [Z]; every arithmetic operation that can leave the range
      is followed by its wrap-around, written out.
    - A [Node] is a C pointer to a [struct Node_s]: either [NULL] or the
      struct it points to.  Nodes are exclusively owned by their parent, so
      the pointer graph is a tree and is modelled as one.
    - An [Entry] is a pointer to a [struct Entry_s]: [None] is [NULL].
    - In-place updates of the C code become functions returning the updated
      node; the counters passed by pointer ([nc], [bh]) are threaded.
    - The [while (1)] loop of [ibt_make_branch] has no structural bound; it
      takes fuel, and running out of it is reported as [Timeout].
    - Dereferencing [NULL] is reported as [Fault].
    - Output, user callbacks and process termination are recorded as
      events. *)

From Stdlib Require Import ZArith List Lia Bool String Ascii DecimalString.
From Stdlib Require Import Permutation Sorted.
Import ListNotations.

Local Open Scope Z_scope.

#[local] Arguments Z.mul : simpl never.
#[local] Arguments Z.add : simpl never.
#[local] Arguments Z.sub : simpl never.
#[local] Arguments Z.pow : simpl never.
#[local] Arguments Z.of_nat : simpl never.
#[local] Arguments Z.modulo : simpl never.

(** ** Machine integers *)

(** [unsigned int] keys. *)
Definition ikey_t := Z.
Definition UINT_BITS : Z := 32.
Definition wrap32 (z : Z) : ikey_t := z mod 2 ^ UINT_BITS.

(** [size_t] counters. *)
Definition size_t := Z.
Definition SIZE_BITS : Z := 64.
Definition wrapsz (z : Z) : size_t := z mod 2 ^ SIZE_BITS.

(** [void *] values: an opaque address. *)
Definition ival_t := Z.

(** Function pointers handed in by the application: opaque addresses. *)
Definition fnptr := Z.

(** A key the C type [ikey_t] can hold. *)
Definition is_ikey (k : Z) : Prop := 0 <= k < 2 ^ UINT_BITS.

(** ** Global constants of [trie.c] *)

Definition BITSPERBYTE : size_t := 8.
Definition BITSPERWORD : size_t := 32.
Definition BYTESPERWORD : size_t := 4.
Definition RADIX : size_t := 256.

Definition EXIT_FAILURE : Z := 1.

(** ** Data model *)

(** [struct Entry_s]. *)
Record Entry_s : Type := mkEntry { value : ival_t; key : ikey_t }.

(** [e->key], for use where a parameter is itself called [key]. *)
Abbreviation entry_key := key (only parsing).

(** [Entry] is a pointer to [struct Entry_s]. *)
Definition Entry := option Entry_s.

(** [Node] is a pointer to [struct Node_s]. *)
Inductive Node : Type :=
| NULL : Node
| Node_s (entry : Entry) (left right : Node) : Node.

(** [struct Trie_s]. *)
Record Trie_s : Type := mkTrie {
  root : Node;
  num_nodes : size_t;
  leaf_nodes : size_t;
  height : size_t;
  ibt_show_value_w : option fnptr;
  ibt_delete_entry : option fnptr
}.

(** The test [node == NULL]. *)
Definition is_null (n : Node) : bool :=
  match n with NULL => true | Node_s _ _ _ => false end.

(** ** Results of partial computations *)

Inductive outcome (A : Type) : Type :=
| Done (a : A)      (* the call returns *)
| Fault             (* a NULL pointer is dereferenced *)
| Timeout.          (* the loop did not finish within the fuel given *)

Arguments Done {A} a.
Arguments Fault {A}.
Arguments Timeout {A}.

Definition bind {A B : Type} (m : outcome A) (f : A -> outcome B) : outcome B :=
  match m with
  | Done a => f a
  | Fault => Fault
  | Timeout => Timeout
  end.

Notation "'do' x <- m ; f" := (bind m (fun x => f))
  (at level 10, x pattern, m at level 100, f at level 200).

(** ** Observable events *)

Inductive event : Type :=
| EvStderr (msg : string)                 (* fprintf(stderr, msg) *)
| EvShow (f : fnptr) (e : Entry)          (* trie->ibt_show_value_w(e, stream) *)
| EvDelete (f : fnptr) (e : Entry)        (* trie->ibt_delete_entry(e) *)
| EvFreeEntry (e : Entry_s)               (* free(node->entry) *)
| EvFreeNode                              (* free(node) *)
| EvFreeTrie.                             (* free(trie) *)

(** ** Creation *)

(** [ibt_create], on the path where [malloc] succeeds. *)
Definition ibt_create (ext_show_value ext_delete_entry : option fnptr) : Trie_s :=
  {| root := NULL;
     num_nodes := 0;
     leaf_nodes := 0;
     height := 0;
     ibt_show_value_w := ext_show_value;
     ibt_delete_entry := ext_delete_entry |}.

(** ** Destruction *)

(** [ibt_delete_value]: the events of freeing one node. *)
Definition ibt_delete_value (trie : Trie_s) (node_entry : Entry) : list event :=
  match node_entry with
  | Some e =>
      match ibt_delete_entry trie with
      | Some f => [EvDelete f (Some e)]
      | None => []
      end ++ [EvFreeEntry e; EvFreeNode]
  | None => [EvFreeNode]
  end.

(** [ibt_destroy_rec]: post-order. *)
Fixpoint ibt_destroy_rec (trie : Trie_s) (node : Node) : list event :=
  match node with
  | NULL => []
  | Node_s e l r =>
      ibt_destroy_rec trie l ++ ibt_destroy_rec trie r ++ ibt_delete_value trie e
  end.

(** [ibt_destroy]. *)
Definition ibt_destroy (trie : Trie_s) : list event :=
  ibt_destroy_rec trie (root trie) ++ [EvFreeTrie].

(** ** Node and entry constructors *)

Definition ibt_make_node : Node := Node_s None NULL NULL.

Definition ibt_make_leaf (entry : Entry) : Node := Node_s entry NULL NULL.

Definition ibt_make_entry (key : ikey_t) (value : ival_t) : Entry :=
  Some {| value := value; key := key |}.

(** ** Insertion *)

(** [ibt_make_branch].  The node [node] is [cur] at loop entry; the result
    is that node after the loop has hung the chain and the two leaves
    below it, with the final values of [*nc] and [*bh]. *)
Fixpoint ibt_make_branch (fuel : nat) (node : Node) (key1 key2 mask : ikey_t)
    (val1 : ival_t) (entry2 : Entry) (nc bh : size_t)
    : outcome (Node * size_t * size_t) :=
  match fuel with
  | O => Timeout
  | S fuel' =>
    match node with
    | NULL => Fault
    | Node_s e l r =>
      let bit1 := Z.land key1 mask in
      let bit2 := Z.land key2 mask in
      if bit1 =? bit2 then
        let nc := wrapsz (nc + 1) in
        let bh := wrapsz (bh + 1) in
        if bit1 =? 0 then
          do (sub, nc', bh') <-
            ibt_make_branch fuel' ibt_make_node key1 key2 (Z.shiftr mask 1)
              val1 entry2 nc bh;
          Done (Node_s e sub r, nc', bh')
        else
          do (sub, nc', bh') <-
            ibt_make_branch fuel' ibt_make_node key1 key2 (Z.shiftr mask 1)
              val1 entry2 nc bh;
          Done (Node_s e l sub, nc', bh')
      else
        let nc := wrapsz (nc + 2) in
        let bh := wrapsz (bh + 1) in
        if bit1 =? 0 then
          Done (Node_s e (ibt_make_leaf (ibt_make_entry key1 val1))
                         (ibt_make_leaf entry2), nc, bh)
        else
          Done (Node_s e (ibt_make_leaf entry2)
                         (ibt_make_leaf (ibt_make_entry key1 val1)), nc, bh)
    end
  end.

(** [ibt_insert_iter].  The loop walks down the tree, so it is structural
    in [cur]; [num_nodes] is [trie->num_nodes] and [bh] is [*bh]. *)
Fixpoint ibt_insert_iter (fuel : nat) (cur : Node) (key mask : ikey_t)
    (value : ival_t) (num_nodes bh : size_t)
    : outcome (Node * size_t * size_t) :=
  match cur with
  | NULL => Fault
  | Node_s e l r =>
    if is_null r && is_null l then
      match e with
      | None => Fault
      | Some e_old =>
        if negb (key =? entry_key e_old) then
          ibt_make_branch fuel (Node_s None l r) key (entry_key e_old) mask
            value (Some e_old) num_nodes bh
        else Done (cur, num_nodes, bh)
      end
    else
      let bit := Z.land key mask in
      if bit =? 0 then
        let bh := wrapsz (bh + 1) in
        match l with
        | NULL =>
            Done (Node_s e (ibt_make_leaf (ibt_make_entry key value)) r,
                  wrapsz (num_nodes + 1), bh)
        | Node_s _ _ _ =>
            do (l', nn, bh') <-
              ibt_insert_iter fuel l key (Z.shiftr mask 1) value num_nodes bh;
            Done (Node_s e l' r, nn, bh')
        end
      else
        let bh := wrapsz (bh + 1) in
        match r with
        | NULL =>
            Done (Node_s e l (ibt_make_leaf (ibt_make_entry key value)),
                  wrapsz (num_nodes + 1), bh)
        | Node_s _ _ _ =>
            do (r', nn, bh') <-
              ibt_insert_iter fuel r key (Z.shiftr mask 1) value num_nodes bh;
            Done (Node_s e l r', nn, bh')
        end
  end.

(** The mask both [ibt_insert_iter] and [ibt_search] start from:
    [mask = 1; mask <<= (BITSPERWORD - 1)]. *)
Definition top_mask : ikey_t := wrap32 (Z.shiftl 1 (BITSPERWORD - 1)).

(** [ibt_insert]. *)
Definition ibt_insert (fuel : nat) (trie : Trie_s) (key : ikey_t) (value : ival_t)
    : outcome Trie_s :=
  let leaf_nodes' := wrapsz (leaf_nodes trie + 1) in
  if is_null (root trie) then
    Done {| root := ibt_make_leaf (ibt_make_entry key value);
            num_nodes := 1;
            leaf_nodes := leaf_nodes';
            height := 1;
            ibt_show_value_w := ibt_show_value_w trie;
            ibt_delete_entry := ibt_delete_entry trie |}
  else
    do (root', nn, bh) <-
      ibt_insert_iter fuel (root trie) key top_mask value (num_nodes trie) 1;
    Done {| root := root';
            num_nodes := nn;
            leaf_nodes := leaf_nodes';
            height := if bh >? height trie then bh else height trie;
            ibt_show_value_w := ibt_show_value_w trie;
            ibt_delete_entry := ibt_delete_entry trie |}.

(** ** Search *)

(** [ibt_closest_match_rec].  [mode] is the C [char]: ['l'] favours the
    left child, anything else the right one. *)
Fixpoint ibt_closest_match_rec (node : Node) (mode : ascii) : outcome Entry :=
  match node with
  | NULL => Fault
  | Node_s e l r =>
    if is_null l && is_null r then Done e
    else if Ascii.eqb mode "l" then
      if negb (is_null l) then ibt_closest_match_rec l "l"
      else ibt_closest_match_rec r "l"
    else
      if negb (is_null r) then ibt_closest_match_rec r "r"
      else ibt_closest_match_rec l "r"
  end.

(** [ibt_search_rec]. *)
Fixpoint ibt_search_rec (node : Node) (key mask : ikey_t) : outcome Entry :=
  match node with
  | NULL => Fault
  | Node_s e l r =>
    if is_null l && is_null r then Done e
    else
      let bit_rep := Z.land key mask in
      if bit_rep =? 0 then
        if is_null l then ibt_closest_match_rec r "l"
        else ibt_search_rec l key (Z.shiftr mask 1)
      else
        if is_null r then ibt_closest_match_rec l "r"
        else ibt_search_rec r key (Z.shiftr mask 1)
  end.

(** What a call of [ibt_search] ends in. *)
Inductive search_result : Type :=
| Returned (e : Entry) (trie : Trie_s)
    (* the call returns [e]; [trie] is the trie afterwards *)
| Exited (log : list event) (status : Z)
    (* the process has written [log] and called [exit(status)];
       the trie no longer exists *)
| Crashed.
    (* a NULL pointer was dereferenced *)

Definition empty_trie_msg : string :=
  String.append "error: cannot query an empty trie" (String "010" EmptyString).

(** [ibt_search]. *)
Definition ibt_search (trie : Trie_s) (key : ikey_t) : search_result :=
  let mask := top_mask in
  if is_null (root trie) then
    Exited (EvStderr empty_trie_msg :: ibt_destroy trie) EXIT_FAILURE
  else
    match ibt_search_rec (root trie) key mask with
    | Done e => Returned e trie
    | _ => Crashed
    end.

(** ** Statistics *)

Definition ibt_size (trie : Trie_s) : size_t := leaf_nodes trie.

Definition ibt_node_count (trie : Trie_s) : size_t :=
  wrapsz (num_nodes trie - leaf_nodes trie).

Definition ibt_height (trie : Trie_s) : size_t := height trie.

(** ** Display *)

Definition no_show_msg : string :=
  String.append "error: no user display function defined" (String "010" EmptyString).

(** [ibt_show_value]. *)
Definition ibt_show_value (trie : Trie_s) (entry : Entry) : list event :=
  match ibt_show_value_w trie with
  | None => [EvStderr no_show_msg]
  | Some f => [EvShow f entry]
  end.

(** [ibt_show_rec]: in-order. *)
Fixpoint ibt_show_rec (trie : Trie_s) (node : Node) : list event :=
  match node with
  | NULL => []
  | Node_s e l r =>
      ibt_show_rec trie l
      ++ match e with
         | Some _ => ibt_show_value trie e
         | None => []
         end
      ++ ibt_show_rec trie r
  end.

(** [ibt_show]. *)
Definition ibt_show (trie : Trie_s) : list event :=
  ibt_show_rec trie (root trie).

(** ** Tries built through the interface *)

(** [built t ks]: [t] is what [ibt_create] followed by the insertions of the
    keys [ks] (latest first) has produced. *)
Inductive built : Trie_s -> list ikey_t -> Prop :=
| built_create (sf df : option fnptr) :
    built (ibt_create sf df) []
| built_insert (t t' : Trie_s) (ks : list ikey_t) (fuel : nat)
    (k : ikey_t) (v : ival_t) :
    built t ks ->
    is_ikey k ->
    ibt_insert fuel t k v = Done t' ->
    built t' (k :: ks).

(** ** Structural measures *)

(** The entries stored in a subtree, left to right. *)
Fixpoint entries (n : Node) : list Entry_s :=
  match n with
  | NULL => []
  | Node_s e l r =>
      entries l ++ match e with Some x => [x] | None => [] end ++ entries r
  end.

Definition keys (n : Node) : list ikey_t := map key (entries n).

(** The number of [struct Node_s] in a subtree. *)
Fixpoint count_nodes (n : Node) : nat :=
  match n with
  | NULL => O
  | Node_s _ l r => S (count_nodes l + count_nodes r)
  end.

(** The number of nodes with at least one child. *)
Fixpoint count_internal (n : Node) : nat :=
  match n with
  | NULL => O
  | Node_s _ l r =>
      ((if is_null l && is_null r then 0 else 1)
       + count_internal l + count_internal r)%nat
  end.

(** Insertion of a list of keys, first key first, all with the same fuel. *)
Fixpoint insert_all (fuel : nat) (t : Trie_s) (kvs : list (ikey_t * ival_t))
    : outcome Trie_s :=
  match kvs with
  | [] => Done t
  | (k, v) :: rest => do t' <- ibt_insert fuel t k v; insert_all fuel t' rest
  end.

(** ** Invariants *)

(** The mask in use at a node with [r] key bits still unread. *)
Definition mask_of (r : nat) : ikey_t :=
  match r with
  | O => 0
  | S r' => 2 ^ Z.of_nat r'
  end.

(** The bits of [k] above the lowest [r]. *)
Definition prefix (k : ikey_t) (r : nat) : Z := Z.shiftr k (Z.of_nat r).

(** Every node is a leaf or a branch. *)
Fixpoint shape_ok (n : Node) : Prop :=
  match n with
  | NULL => True
  | Node_s e l r =>
      (if is_null l && is_null r then e <> None else e = None)
      /\ shape_ok l /\ shape_ok r
  end.

(** [wf r p n]: [n] sits where [r] bits remain unread, every node of it is
    a leaf or a branch, and the read bits of every key in it are [p]. *)
Fixpoint wf (r : nat) (p : Z) (n : Node) {struct n} : Prop :=
  match n with
  | NULL => True
  | Node_s e l rt =>
      if is_null l && is_null rt then
        match e with
        | Some x => prefix (key x) r = p
        | None => False
        end
      else
        e = None /\
        match r with
        | O => False
        | S r' => wf r' (2 * p) l /\ wf r' (2 * p + 1) rt
        end
  end.

(** What holds of a trie into which the keys [ks] have been inserted. *)
Record trie_inv (t : Trie_s) (ks : list ikey_t) : Prop := {
  inv_wf : wf 32 0 (root t);
  inv_num_nodes : num_nodes t = Z.of_nat (count_nodes (root t));
  inv_keys : forall k, In k (keys (root t)) <-> In k ks;
  inv_leaf_nodes : leaf_nodes t = wrapsz (Z.of_nat (List.length ks));
  inv_empty : is_null (root t) = true <-> ks = []
}.

(** ** The search rule in the words of the specification *)

(** The two sides of a branch; a bias is one of them. *)
Inductive side : Type := SideLeft | SideRight.

Definition other_side (s : side) : side :=
  match s with SideLeft => SideRight | SideRight => SideLeft end.

(** The [mode] character [ibt_closest_match_rec] uses for a bias. *)
Definition mode_of (s : side) : ascii :=
  match s with SideLeft => "l" | SideRight => "r" end.

(** The child on one side of a node. *)
Definition child (s : side) (n : Node) : Node :=
  match n with
  | NULL => NULL
  | Node_s _ l r => match s with SideLeft => l | SideRight => r end
  end.

(** A branch: a node with a child. *)
Definition has_children (n : Node) : bool :=
  match n with
  | NULL => false
  | Node_s _ l r => negb (is_null l && is_null r)
  end.

(** The child the current bit of the key asks for: left for 0, right for 1. *)
Definition required (key mask : ikey_t) : side :=
  if Z.land key mask =? 0 then SideLeft else SideRight.

(** [exact_descent key n mask b mask']: following the bits of [key] from
    node [n] (mask [mask]) through children that are all present leads to
    node [b] (mask [mask']). *)
Inductive exact_descent (key : ikey_t) : Node -> ikey_t -> Node -> ikey_t -> Prop :=
| descent_here (n : Node) (mask : ikey_t) :
    exact_descent key n mask n mask
| descent_down (n : Node) (mask : ikey_t) (b : Node) (mask' : ikey_t) :
    has_children n = true ->
    is_null (child (required key mask) n) = false ->
    exact_descent key (child (required key mask) n) (Z.shiftr mask 1) b mask' ->
    exact_descent key n mask b mask'.

(** Closest-match mode as the specification words it: go to the child on
    the side of the bias when there is one, otherwise to the other child,
    until a leaf is reached; the result is that leaf's Entry. *)
Fixpoint biased_descent (bias : side) (n : Node) : option Entry :=
  match n with
  | NULL => None
  | Node_s e l r =>
      if is_null l && is_null r then Some e
      else match bias with
           | SideLeft =>
               if is_null l then biased_descent bias r else biased_descent bias l
           | SideRight =>
               if is_null r then biased_descent bias l else biased_descent bias r
           end
  end.

(** [subnode s n]: the node [s] occurs in the subtree [n]. *)
Inductive subnode : Node -> Node -> Prop :=
| subnode_refl (e : Entry) (l r : Node) :
    subnode (Node_s e l r) (Node_s e l r)
| subnode_left (s : Node) (e : Entry) (l r : Node) :
    subnode s l -> subnode s (Node_s e l r)
| subnode_right (s : Node) (e : Entry) (l r : Node) :
    subnode s r -> subnode s (Node_s e l r).

(** A leaf holds an Entry and has no child; a branch holds no Entry and has
    at least one child. *)
Definition leaf_or_branch (n : Node) : Prop :=
  match n with
  | NULL => False
  | Node_s e l r =>
      (e <> None /\ l = NULL /\ r = NULL)
      \/ (e = None /\ (l <> NULL \/ r <> NULL))
  end.

(** ** Example tries *)

Definition trie_1 : Trie_s :=
  Eval vm_compute in
    match insert_all 32 (ibt_create (Some 1) (Some 2)) [(1, 100)] with
    | Done t => t
    | _ => ibt_create None None
    end.

Definition trie_1_3 : Trie_s :=
  Eval vm_compute in
    match insert_all 32 (ibt_create (Some 1) (Some 2)) [(1, 100); (3, 300)] with
    | Done t => t
    | _ => ibt_create None None
    end.

(** ** The application: [place_ip.c]

    The C library calls that read text ([sscanf], [strtok], [strtoll],
    [strchr], [getline]) are represented by what they deliver; [malloc] by
    the address it returns.  Lines and queries are taken to be well formed
    and the input stream to read without error ([ferror] stays 0). *)

Definition IPV4STR : Z := 15.

Definition LLONG_MAX : Z := 2 ^ 63 - 1.
Definition LLONG_MIN : Z := - 2 ^ 63.
Definition UINT_MAX : Z := 2 ^ 32 - 1.

(** [int], 32 bits, two's complement; [unsigned char]. *)
Definition wrap_int (z : Z) : Z := (z + 2 ^ 31) mod 2 ^ 32 - 2 ^ 31.
Definition wrap_uchar (z : Z) : Z := z mod 2 ^ BITSPERBYTE.

(** A value an [unsigned char] can hold. *)
Definition is_byte (b : Z) : Prop := 0 <= b < 2 ^ BITSPERBYTE.

(** What [printf] writes for a [%d] or [%lld] conversion. *)
Definition fmt_d (z : Z) : string := NilZero.string_of_int (Z.to_int z).

Definition newline : string := String "010" EmptyString.

(** [ipv4_to_num]; [bytes] is the array as [sscanf] has left it.  Each
    [unsigned char] is promoted to [int] before it is shifted. *)
Definition ipv4_to_num (bytes : Z * Z * Z * Z) : ikey_t :=
  let '(bytes0, bytes1, bytes2, bytes3) := bytes in
  wrap32
    (Z.lor
       (Z.lor
          (Z.lor (wrap_int (Z.shiftl bytes0 (BITSPERBYTE * 3)))
                 (wrap_int (Z.shiftl bytes1 (BITSPERBYTE * 2))))
          (wrap_int (Z.shiftl bytes2 BITSPERBYTE)))
       bytes3).

(** [num_to_ipv4]: the text left in [result]. *)
Definition num_to_ipv4 (num : ikey_t) : string :=
  let mask := wrap32 (RADIX - 1) in
  if num =? wrap32 (-1) then "INVALID"%string
  else
    let bytes0 := wrap_uchar (Z.land num mask) in
    let bytes1 := wrap_uchar (Z.land (Z.shiftr num BITSPERBYTE) mask) in
    let bytes2 := wrap_uchar (Z.land (Z.shiftr num (BITSPERBYTE * 2)) mask) in
    let bytes3 := wrap_uchar (Z.land (Z.shiftr num (BITSPERBYTE * 3)) mask) in
    (fmt_d bytes3 ++ "." ++ fmt_d bytes2 ++ "." ++ fmt_d bytes1 ++ "."
     ++ fmt_d bytes0)%string.

(** Events of the application: those of the trie, and the release of the
    line buffer and of the input stream. *)
Inductive app_event : Type :=
| TrieEvent (e : event)
| FreeBuffer                      (* free(buf) *)
| CloseStream.                    (* fclose(stream) *)

Definition out_of_range_msg (limit : Z) : string :=
  ("error: key " ++ fmt_d limit ++ " is out of range" ++ newline)%string.

(** [convert_query]; [raw_num] is what [strtoll] has returned. *)
Definition convert_query (raw_num : Z) : list app_event * ikey_t :=
  if raw_num =? LLONG_MAX then
    ([TrieEvent (EvStderr (out_of_range_msg LLONG_MAX))], UINT_MAX)
  else if raw_num =? LLONG_MIN then
    ([TrieEvent (EvStderr (out_of_range_msg LLONG_MIN))], UINT_MAX)
  else ([], wrap32 raw_num).

(** A query line: without a ['.'] it is a number, read by [strtoll]; with
    one it is a dotted address, read by [sscanf]. *)
Inductive query : Type :=
| QueryNumber (raw_num : Z)
| QueryDotted (bytes : Z * Z * Z * Z).

(** How a function of the application ends. *)
Inductive run_result : Type :=
| Continues (log : list app_event) (trie : Trie_s)
    (* it returns, having written [log] and left [trie] *)
| Terminated (log : list app_event) (status : Z)
    (* it has called [exit(status)] *)
| Faulted.
    (* a NULL pointer was dereferenced *)

Definition query_failure_msg : string :=
  ("error: query failure" ++ newline)%string.

(** [execute_query]. *)
Definition execute_query (trie : Trie_s) (q : query) : run_result :=
  let '(log, num_query) :=
    match q with
    | QueryNumber raw_num => convert_query raw_num
    | QueryDotted bytes => ([], ipv4_to_num bytes)
    end in
  match ibt_search trie num_query with
  | Returned None trie' =>
      Terminated (log ++ map TrieEvent (EvStderr query_failure_msg
                                          :: ibt_destroy trie'))
        EXIT_FAILURE
  | Returned res trie' =>
      Continues (log ++ map TrieEvent (ibt_show_value trie' res)) trie'
  | Exited log' status => Terminated (log ++ map TrieEvent log') status
  | Crashed => Faulted
  end.






(** ** Further measures and notions *)

(** The number of nodes on the longest path from a node down to a leaf. *)
Fixpoint tree_height (n : Node) : nat :=
  match n with
  | NULL => O
  | Node_s _ l r => S (Nat.max (tree_height l) (tree_height r))
  end.

(** The value given with the first occurrence of key [k] in a list of
    insertions. *)
Fixpoint first_value (k : ikey_t) (kvs : list (ikey_t * ival_t)) : option ival_t :=
  match kvs with
  | [] => None
  | (k', v) :: rest => if k' =? k then Some v else first_value k rest
  end.

(** Every branch has at least two Entries below it. *)
Fixpoint full (n : Node) : Prop :=
  match n with
  | NULL => True
  | Node_s e l r =>
      (is_null l && is_null r = false -> (2 <= List.length (entries n))%nat)
      /\ full l /\ full r
  end.

(** The tree with every value forgotten: its nodes and keys. *)
Fixpoint skeleton (n : Node) : Node :=
  match n with
  | NULL => NULL
  | Node_s e l r =>
      Node_s (match e with
              | Some x => Some {| value := 0; key := key x |}
              | None => None
              end)
        (skeleton l) (skeleton r)
  end.

(** The calls of a disposal callback in a log, in order: the function and
    the Entry handed to it. *)
Fixpoint deleted_entries (log : list event) : list (fnptr * Entry) :=
  match log with
  | [] => []
  | EvDelete f e :: rest => (f, e) :: deleted_entries rest
  | _ :: rest => deleted_entries rest
  end.

(** The Entries and the number of nodes released in a log. *)
Fixpoint freed_entries (log : list event) : list Entry_s :=
  match log with
  | [] => []
  | EvFreeEntry e :: rest => e :: freed_entries rest
  | _ :: rest => freed_entries rest
  end.

Fixpoint freed_nodes (log : list event) : nat :=
  match log with
  | [] => O
  | EvFreeNode :: rest => S (freed_nodes rest)
  | _ :: rest => freed_nodes rest
  end.

(** A trie whose keys all have the top bit set. *)
Definition trie_hi : Trie_s :=
  Eval vm_compute in
    match insert_all 32 (ibt_create (Some 1) (Some 2))
            [(2147483649, 100); (2147483651, 300)] with
    | Done t => t
    | _ => ibt_create None None
    end.

(** The keys of [trie_1_3] inserted in another order, one of them twice,
    with other values. *)
Definition trie_3_1_3 : Trie_s :=
  Eval vm_compute in
    match insert_all 32 (ibt_create None None) [(3, 7); (1, 8); (3, 9)] with
    | Done t => t
    | _ => ibt_create None None
    end.

(** * Proofs *)

(** ** Bit-level facts *)

Lemma top_mask_eq : top_mask = mask_of 32.
Proof. reflexivity. Qed.

Lemma mask_of_shiftr (r : nat) : Z.shiftr (mask_of (S r)) 1 = mask_of r.
Proof.
  destruct r as [|r]; [reflexivity|].
  cbn [mask_of]. rewrite Z.shiftr_div_pow2 by lia.
  rewrite Nat2Z.inj_succ, Z.pow_succ_r by lia.
  change (2 ^ 1) with 2. rewrite Z.mul_comm, Z.div_mul by lia. reflexivity.
Qed.

Lemma land_pow2 (k i : Z) :
  0 <= i -> Z.land k (2 ^ i) = if Z.testbit k i then 2 ^ i else 0.
Proof.
  intros Hi. apply Z.bits_inj'. intros j Hj.
  rewrite Z.land_spec, Z.pow2_bits_eqb by lia.
  destruct (Z.eqb_spec i j) as [->|Hne].
  - destruct (Z.testbit k j) eqn:E; cbn.
    + rewrite Z.pow2_bits_eqb, Z.eqb_refl by lia. reflexivity.
    + rewrite Z.bits_0. reflexivity.
  - rewrite andb_false_r. destruct (Z.testbit k i).
    + rewrite Z.pow2_bits_eqb by lia.
      destruct (Z.eqb_spec i j); [contradiction|reflexivity].
    + rewrite Z.bits_0. reflexivity.
Qed.

Lemma pow2_nonzero (i : Z) : 0 <= i -> 2 ^ i <> 0.
Proof. intros Hi. pose proof (Z.pow_pos_nonneg 2 i). lia. Qed.

Lemma land_mask_zero (k : Z) (r : nat) :
  (Z.land k (mask_of (S r)) =? 0) = negb (Z.testbit k (Z.of_nat r)).
Proof.
  cbn [mask_of]. rewrite land_pow2 by lia.
  pose proof (pow2_nonzero (Z.of_nat r)).
  destruct (Z.testbit k (Z.of_nat r)); cbn [negb].
  - apply Z.eqb_neq. lia.
  - reflexivity.
Qed.

Lemma land_mask_eq (k1 k2 : Z) (r : nat) :
  (Z.land k1 (mask_of (S r)) =? Z.land k2 (mask_of (S r)))
  = Bool.eqb (Z.testbit k1 (Z.of_nat r)) (Z.testbit k2 (Z.of_nat r)).
Proof.
  cbn [mask_of]. rewrite !land_pow2 by lia.
  pose proof (pow2_nonzero (Z.of_nat r)).
  destruct (Z.testbit k1 (Z.of_nat r)), (Z.testbit k2 (Z.of_nat r));
    cbn [Bool.eqb].
  - apply Z.eqb_refl.
  - apply Z.eqb_neq. lia.
  - apply Z.eqb_neq. lia.
  - reflexivity.
Qed.

Lemma prefix_0 (k : Z) : prefix k 0 = k.
Proof. unfold prefix. apply Z.shiftr_0_r. Qed.

Lemma prefix_step (k : Z) (r : nat) :
  prefix k r = 2 * prefix k (S r) + Z.b2z (Z.testbit k (Z.of_nat r)).
Proof.
  unfold prefix. rewrite Nat2Z.inj_succ.
  rewrite <- Z.add_1_r, <- Z.shiftr_shiftr by lia.
  replace (Z.testbit k (Z.of_nat r))
    with (Z.odd (Z.shiftr k (Z.of_nat r)))
    by (rewrite <- Z.bit0_odd, Z.shiftr_spec by lia; reflexivity).
  generalize (Z.shiftr k (Z.of_nat r)). intros z.
  rewrite Z.shiftr_div_pow2 by lia. change (2 ^ 1) with 2.
  rewrite (Z.div2_odd z) at 1. rewrite <- Z.div2_div. reflexivity.
Qed.

Lemma prefix_succ (k : Z) (r : nat) (p : Z) (b : bool) :
  prefix k r = 2 * p + Z.b2z b ->
  prefix k (S r) = p /\ Z.testbit k (Z.of_nat r) = b.
Proof.
  rewrite prefix_step. intros H.
  destruct (Z.testbit k (Z.of_nat r)), b; cbn [Z.b2z] in H; split;
    try reflexivity; lia.
Qed.

Lemma prefix_bounds (k : Z) (r : nat) (p : Z) :
  prefix k r = p -> p * 2 ^ Z.of_nat r <= k < (p + 1) * 2 ^ Z.of_nat r.
Proof.
  unfold prefix. rewrite Z.shiftr_div_pow2 by lia. intros <-.
  pose proof (Z.pow_pos_nonneg 2 (Z.of_nat r)) as Hp.
  pose proof (Z.div_mod k (2 ^ Z.of_nat r)) as Hd.
  pose proof (Z.mod_pos_bound k (2 ^ Z.of_nat r)) as Hm.
  nia.
Qed.

Lemma prefix_ikey (k : Z) : prefix k 32 = 0 <-> is_ikey k.
Proof.
  unfold is_ikey, UINT_BITS. split.
  - intros H. apply prefix_bounds in H. change (Z.of_nat 32) with 32 in H. lia.
  - intros H. unfold prefix. rewrite Z.shiftr_div_pow2 by lia.
    change (Z.of_nat 32) with 32. apply Z.div_small. lia.
Qed.

(** ** Counter arithmetic *)

Lemma wrapsz_add_l (a b : Z) : wrapsz (wrapsz a + b) = wrapsz (a + b).
Proof. unfold wrapsz. apply Z.add_mod_idemp_l. discriminate. Qed.

Lemma wrapsz_small (a : Z) : 0 <= a < 2 ^ SIZE_BITS -> wrapsz a = a.
Proof. intros H. unfold wrapsz. apply Z.mod_small. exact H. Qed.

Lemma done3_eq (n : Node) (a a' b b' : Z) :
  a = a' -> b = b' -> Done (n, a, b) = Done (n, a', b').
Proof. intros -> ->. reflexivity. Qed.

Ltac splits := repeat match goal with |- _ /\ _ => split end.

Ltac counters :=
  apply done3_eq; rewrite ?wrapsz_add_l; apply (f_equal wrapsz); lia.

(** ** Structure of well-formed subtrees *)

Lemma wf_shape_ok (n : Node) : forall r p, wf r p n -> shape_ok n.
Proof.
  induction n as [|e l IHl rt IHrt]; intros r p H; cbn in *; [exact I|].
  destruct (is_null l && is_null rt) eqn:E.
  - apply andb_prop in E. destruct E as [El Er].
    destruct l; [|discriminate]. destruct rt; [|discriminate].
    destruct e; [|contradiction]. cbn. repeat split. discriminate.
  - destruct H as [-> H]. destruct r as [|r]; [contradiction|].
    destruct H as [Hl Hr]. repeat split; eauto.
Qed.

Lemma wf_prefix (n : Node) :
  forall r p k, wf r p n -> In k (keys n) -> prefix k r = p.
Proof.
  unfold keys.
  induction n as [|e l IHl rt IHrt]; intros r p k H Hin; cbn in *; [contradiction|].
  destruct (is_null l && is_null rt) eqn:E.
  - apply andb_prop in E. destruct E as [El Er].
    destruct l; [|discriminate]. destruct rt; [|discriminate].
    destruct e; [|contradiction]. cbn in Hin.
    destruct Hin as [<-|[]]. exact H.
  - destruct H as [-> H]. destruct r as [|r]; [contradiction|].
    destruct H as [Hl Hr]. cbn in Hin. rewrite map_app, in_app_iff in Hin.
    destruct Hin as [Hin|Hin].
    + specialize (IHl _ _ _ Hl Hin).
      apply (prefix_succ k r p false). cbn [Z.b2z]. lia.
    + specialize (IHrt _ _ _ Hr Hin).
      apply (prefix_succ k r p true). cbn [Z.b2z]. lia.
Qed.

Lemma wf_count (n : Node) :
  forall r p, wf r p n ->
    Z.of_nat (count_nodes n) <= 2 ^ (Z.of_nat r + 1) - 1.
Proof.
  induction n as [|e l IHl rt IHrt]; intros r p H.
  - cbn. pose proof (Z.pow_pos_nonneg 2 (Z.of_nat r + 1)). lia.
  - cbn [wf] in H. destruct (is_null l && is_null rt) eqn:E.
    + apply andb_prop in E. destruct E as [El Er].
      destruct l; [|discriminate]. destruct rt; [|discriminate].
      cbn. pose proof (Z.pow_pos_nonneg 2 (Z.of_nat r)).
      rewrite Z.pow_add_r by lia. change (2 ^ 1) with 2. lia.
    + destruct H as [-> H]. destruct r as [|r]; [contradiction|].
      destruct H as [Hl Hr].
      specialize (IHl _ _ Hl). specialize (IHrt _ _ Hr).
      cbn [count_nodes]. rewrite Nat2Z.inj_succ, Nat2Z.inj_add.
      rewrite (Nat2Z.inj_succ r).
      replace (Z.succ (Z.of_nat r) + 1) with (Z.succ (Z.of_nat r + 1)) by lia.
      rewrite Z.pow_succ_r by lia. lia.
Qed.

(** ** The branch-making loop *)

Lemma make_branch_spec :
  forall (r fuel : nat) (k1 k2 : ikey_t) (v1 : ival_t) (e2 : Entry_s)
         (nc bh : size_t) (p : Z),
    key e2 = k2 -> k1 <> k2 ->
    prefix k1 r = p -> prefix k2 r = p -> (r <= fuel)%nat ->
    exists n' d,
      ibt_make_branch fuel (Node_s None NULL NULL) k1 k2 (mask_of r) v1
        (Some e2) nc bh
      = Done (n', wrapsz (nc + d), wrapsz (bh + (d - 1)))
      /\ wf r p n' /\ is_null n' = false
      /\ Permutation (entries n') [mkEntry v1 k1; e2]
      /\ Z.of_nat (count_nodes n') = 1 + d
      /\ 2 <= d <= Z.of_nat r + 1.
Proof.
  induction r as [|r IH]; intros fuel k1 k2 v1 e2 nc bh p He Hne H1 H2 Hf.
  - rewrite prefix_0 in H1, H2. congruence.
  - destruct fuel as [|fuel]; [lia|].
    cbn [ibt_make_branch]. rewrite land_mask_eq, land_mask_zero, mask_of_shiftr.
    pose proof (prefix_step k1 r) as S1. pose proof (prefix_step k2 r) as S2.
    rewrite H1 in S1. rewrite H2 in S2.
    destruct (Z.testbit k1 (Z.of_nat r)) eqn:B1,
             (Z.testbit k2 (Z.of_nat r)) eqn:B2;
      cbn [Bool.eqb negb Z.b2z] in *.
    + (* both bits are 1: one more node on the right *)
      destruct (IH fuel k1 k2 v1 e2 (wrapsz (nc + 1)) (wrapsz (bh + 1))
                  (2 * p + 1) He Hne S1 S2 ltac:(lia))
        as (n' & d & Heq & Hwf & Hnn & Hperm & Hcnt & Hd).
      unfold ibt_make_node. rewrite Heq. cbn [bind].
      exists (Node_s None NULL n'), (d + 1). splits.
      * counters.
      * cbn [wf is_null andb]. rewrite Hnn. auto.
      * reflexivity.
      * exact Hperm.
      * cbn [count_nodes]. lia.
      * lia.
      * lia.
    + (* they differ, key1 goes right *)
      exists (Node_s None (ibt_make_leaf (Some e2))
                (ibt_make_leaf (ibt_make_entry k1 v1))), 2.
      splits; try reflexivity; try lia.
      * cbn. rewrite He. splits; [reflexivity|lia|lia].
      * cbn. apply perm_swap.
    + (* they differ, key1 goes left *)
      exists (Node_s None (ibt_make_leaf (ibt_make_entry k1 v1))
                (ibt_make_leaf (Some e2))), 2.
      splits; try reflexivity; try lia.
      cbn. rewrite He. splits; [reflexivity|lia|lia].
    + (* both bits are 0: one more node on the left *)
      destruct (IH fuel k1 k2 v1 e2 (wrapsz (nc + 1)) (wrapsz (bh + 1))
                  (2 * p) He Hne ltac:(lia) ltac:(lia) ltac:(lia))
        as (n' & d & Heq & Hwf & Hnn & Hperm & Hcnt & Hd).
      unfold ibt_make_node. rewrite Heq. cbn [bind].
      exists (Node_s None n' NULL), (d + 1). splits.
      * counters.
      * cbn [wf is_null andb]. rewrite Hnn. cbn. auto.
      * reflexivity.
      * cbn [entries]. rewrite app_nil_r. exact Hperm.
      * cbn [count_nodes]. lia.
      * lia.
      * lia.
Qed.

(** ** The insertion loop *)

Lemma keys_node (e : Entry) (l r : Node) :
  keys (Node_s e l r)
  = keys l ++ match e with Some x => [key x] | None => [] end ++ keys r.
Proof.
  unfold keys. cbn [entries]. rewrite !map_app. destruct e; reflexivity.
Qed.

Lemma wf_branch_inv (r : nat) (p : Z) (e : Entry) (l rt : Node) :
  wf r p (Node_s e l rt) -> is_null l && is_null rt = false ->
  e = None /\ exists r', r = S r' /\ wf r' (2 * p) l /\ wf r' (2 * p + 1) rt.
Proof.
  cbn [wf]. intros H E. rewrite E in H. destruct H as [-> H].
  destruct r as [|r']; [contradiction|]. eauto.
Qed.

Lemma wf_leaf_inv (r : nat) (p : Z) (e : Entry) (l rt : Node) :
  wf r p (Node_s e l rt) -> is_null l && is_null rt = true ->
  l = NULL /\ rt = NULL /\ exists x, e = Some x /\ prefix (key x) r = p.
Proof.
  cbn [wf]. intros H E. rewrite E in H. apply andb_prop in E.
  destruct E as [El Er].
  destruct l; [|discriminate]. destruct rt; [|discriminate].
  destruct e as [x|]; [|contradiction]. eauto.
Qed.

Lemma not_in_other_side (n : Node) (r : nat) (p : Z) (k : ikey_t) (b b' : bool) :
  wf r (2 * p + Z.b2z b) n -> prefix k r = 2 * p + Z.b2z b' -> b <> b' ->
  ~ In k (keys n).
Proof.
  intros Hwf Hk Hb Hin. apply (wf_prefix _ _ _ _ Hwf) in Hin.
  destruct b, b'; cbn [Z.b2z] in *; try congruence; lia.
Qed.

(** What one run of the insertion loop does below a node that has [r] bits
    left to read and whose keys share the prefix of the new key. *)
Lemma insert_iter_spec (n : Node) :
  forall (r fuel : nat) (p : Z) (k : ikey_t) (v : ival_t) (nn bh : size_t),
    wf r p n -> is_null n = false -> prefix k r = p -> (r <= fuel)%nat ->
    exists n' nn' bh',
      ibt_insert_iter fuel n k (mask_of r) v nn bh = Done (n', nn', bh')
      /\ wf r p n' /\ is_null n' = false
      /\ ((In k (keys n) /\ n' = n /\ nn' = nn)
          \/ (~ In k (keys n)
              /\ Permutation (entries n') (mkEntry v k :: entries n)
              /\ exists d, 1 <= d <= Z.of_nat r + 1
                 /\ nn' = wrapsz (nn + d)
                 /\ Z.of_nat (count_nodes n')
                    = Z.of_nat (count_nodes n) + d)).
Proof.
  induction n as [|e l IHl rt IHrt]; intros r fuel p k v nn bh Hwf Hnn Hk Hf;
    [discriminate|].
  cbn [ibt_insert_iter]. rewrite (andb_comm (is_null rt)).
  destruct (is_null l && is_null rt) eqn:E.
  - (* a leaf *)
    destruct (wf_leaf_inv _ _ _ _ _ Hwf E) as (-> & -> & x & -> & Hx).
    destruct (Z.eqb_spec k (key x)) as [Heq|Hne]; cbn [negb].
    + exists (Node_s (Some x) NULL NULL), nn, bh. splits; auto.
      left. splits; auto. rewrite keys_node. cbn. auto.
    + destruct (make_branch_spec r fuel k (key x) v x nn bh p
                  eq_refl Hne Hk Hx Hf)
        as (n' & d & Hrun & Hwf' & Hnn' & Hperm & Hcnt & Hd).
      exists n', (wrapsz (nn + d)), (wrapsz (bh + (d - 1))). splits; auto.
      right. splits.
      * rewrite keys_node. cbn. intros [H|[]]. congruence.
      * exact Hperm.
      * exists d. splits; try lia. cbn [count_nodes]. lia.
  - (* a branch *)
    destruct (wf_branch_inv _ _ _ _ _ Hwf E) as (-> & r' & -> & Hl & Hr).
    rewrite land_mask_zero, mask_of_shiftr.
    pose proof (prefix_step k r') as Hstep. rewrite Hk in Hstep.
    destruct (Z.testbit k (Z.of_nat r')) eqn:B; cbn [negb Z.b2z] in *.
    + (* bit 1: to the right *)
      assert (Hnl : ~ In k (keys l)).
      { apply (not_in_other_side l r' p k false true); cbn [Z.b2z];
          auto; try lia. replace (2 * p + 0) with (2 * p) by lia. exact Hl. }
      destruct rt as [|er rl rr].
      * exists (Node_s None l (ibt_make_leaf (ibt_make_entry k v))),
          (wrapsz (nn + 1)), (wrapsz (bh + 1)). splits; auto.
        -- cbn [wf is_null ibt_make_leaf]. rewrite andb_false_r.
           splits; auto; cbn; lia.
        -- right. splits.
           ++ rewrite keys_node. cbn. rewrite app_nil_r. exact Hnl.
           ++ cbn. rewrite app_nil_r. symmetry. apply Permutation_cons_append.
           ++ exists 1. splits; try lia. cbn [count_nodes ibt_make_leaf].
              lia.
      * destruct (IHrt r' fuel (2 * p + 1) k v nn (wrapsz (bh + 1)) Hr
                    eq_refl Hstep ltac:(lia))
          as (n' & nn' & bh' & Hrun & Hwf' & Hnn' & Hcase).
        rewrite Hrun. cbn [bind].
        exists (Node_s None l n'), nn', bh'. splits; auto.
        -- cbn [wf]. rewrite Hnn', andb_false_r. auto.
        -- destruct Hcase as [(Hin & -> & ->)|(Hnin & Hperm & d & Hd & -> & Hcnt)].
           ++ left. splits; auto. rewrite keys_node. cbn.
              apply in_or_app. right. exact Hin.
           ++ right. splits.
              ** rewrite keys_node. cbn. intros H.
                 apply in_app_or in H. tauto.
              ** cbn [entries app].
                 rewrite Hperm. symmetry. apply Permutation_middle.
              ** exists d. splits; try lia. cbn [count_nodes] in *. lia.
    + (* bit 0: to the left *)
      assert (Hnr : ~ In k (keys rt)).
      { apply (not_in_other_side rt r' p k true false); cbn [Z.b2z];
          auto; try lia. }
      destruct l as [|el ll lr].
      * exists (Node_s None (ibt_make_leaf (ibt_make_entry k v)) rt),
          (wrapsz (nn + 1)), (wrapsz (bh + 1)). splits; auto.
        -- cbn [wf is_null ibt_make_leaf andb].
           splits; auto; cbn; lia.
        -- right. splits.
           ++ rewrite keys_node. cbn. exact Hnr.
           ++ cbn. reflexivity.
           ++ exists 1. splits; try lia. cbn [count_nodes ibt_make_leaf].
              lia.
      * destruct (IHl r' fuel (2 * p) k v nn (wrapsz (bh + 1)) Hl
                    eq_refl ltac:(lia) ltac:(lia))
          as (n' & nn' & bh' & Hrun & Hwf' & Hnn' & Hcase).
        rewrite Hrun. cbn [bind].
        exists (Node_s None n' rt), nn', bh'. splits; auto.
        -- cbn [wf]. rewrite Hnn'. cbn [andb]. auto.
        -- destruct Hcase as [(Hin & -> & ->)|(Hnin & Hperm & d & Hd & -> & Hcnt)].
           ++ left. splits; auto. rewrite keys_node. cbn.
              apply in_or_app. left. exact Hin.
           ++ right. splits.
              ** rewrite keys_node. cbn. intros H.
                 apply in_app_or in H. tauto.
              ** cbn [entries app]. rewrite Hperm. reflexivity.
              ** exists d. splits; try lia. cbn [count_nodes] in *. lia.
Qed.

(** ** Fuel *)

(** Once the mask has run out the loop of [ibt_make_branch] never exits:
    whatever the fuel, the model reports [Timeout]. *)
Lemma make_branch_mask_zero (fuel : nat) :
  forall (e : Entry) (l r : Node) (k1 k2 : ikey_t) (v1 : ival_t)
         (e2 : Entry) (nc bh : size_t),
    ibt_make_branch fuel (Node_s e l r) k1 k2 0 v1 e2 nc bh = Timeout.
Proof.
  induction fuel as [|fuel IH]; intros e l r k1 k2 v1 e2 nc bh; [reflexivity|].
  cbn [ibt_make_branch]. rewrite !Z.land_0_r. cbn [Z.eqb].
  change (Z.shiftr 0 1) with 0. unfold ibt_make_node. rewrite IH. reflexivity.
Qed.

(** More fuel never changes a result already obtained. *)
Lemma make_branch_fuel_mono (f : nat) :
  forall (f' : nat) (node : Node) (k1 k2 mask : ikey_t) (v1 : ival_t)
         (e2 : Entry) (nc bh : size_t) (x : Node * size_t * size_t),
    (f <= f')%nat ->
    ibt_make_branch f node k1 k2 mask v1 e2 nc bh = Done x ->
    ibt_make_branch f' node k1 k2 mask v1 e2 nc bh = Done x.
Proof.
  induction f as [|f IH]; intros f' node k1 k2 mask v1 e2 nc bh x Hle H;
    [discriminate|].
  destruct f' as [|f']; [lia|].
  cbn [ibt_make_branch] in *. destruct node as [|e l r]; [discriminate|].
  destruct (Z.land k1 mask =? Z.land k2 mask); [|exact H].
  destruct (Z.land k1 mask =? 0);
    match type of H with
    | bind ?m _ = _ => destruct m as [y| |] eqn:E; try discriminate
    end;
    rewrite (IH f' _ _ _ _ _ _ _ _ y ltac:(lia) E); exact H.
Qed.

Lemma insert_iter_fuel_mono (cur : Node) :
  forall (f f' : nat) (k mask : ikey_t) (v : ival_t) (nn bh : size_t)
         (x : Node * size_t * size_t),
    (f <= f')%nat ->
    ibt_insert_iter f cur k mask v nn bh = Done x ->
    ibt_insert_iter f' cur k mask v nn bh = Done x.
Proof.
  induction cur as [|e l IHl r IHr]; intros f f' k mask v nn bh x Hle H;
    [discriminate|].
  cbn [ibt_insert_iter] in *.
  destruct (is_null r && is_null l).
  - destruct e as [e_old|]; [|discriminate].
    destruct (negb (k =? key e_old)); [|exact H].
    eapply make_branch_fuel_mono; eauto.
  - destruct (Z.land k mask =? 0).
    + destruct l as [|el ll lr]; [exact H|].
      match type of H with
      | bind ?m _ = _ => destruct m as [y| |] eqn:E; try discriminate
      end.
      rewrite (IHl f f' _ _ _ _ _ y Hle E). exact H.
    + destruct r as [|er rl rr]; [exact H|].
      match type of H with
      | bind ?m _ = _ => destruct m as [y| |] eqn:E; try discriminate
      end.
      rewrite (IHr f f' _ _ _ _ _ y Hle E). exact H.
Qed.

Lemma insert_fuel_mono (f f' : nat) (t t' : Trie_s) (k : ikey_t) (v : ival_t) :
  (f <= f')%nat ->
  ibt_insert f t k v = Done t' -> ibt_insert f' t k v = Done t'.
Proof.
  unfold ibt_insert. intros Hle H. destruct (is_null (root t)); [exact H|].
  match type of H with
  | bind ?m _ = _ => destruct m as [y| |] eqn:E; try discriminate
  end.
  rewrite (insert_iter_fuel_mono _ f f' _ _ _ _ _ y Hle E). exact H.
Qed.

(** ** The invariant of a trie *)

Lemma count_nodes_fits (n : Node) :
  wf 32 0 n -> 0 <= Z.of_nat (count_nodes n) < 2 ^ 33.
Proof.
  intros H. apply wf_count in H. change (Z.of_nat 32 + 1) with 33 in H. lia.
Qed.

(** One insertion into a trie that satisfies the invariant. *)
Lemma insert_spec (t : Trie_s) (ks : list ikey_t) (fuel : nat)
    (k : ikey_t) (v : ival_t) :
  trie_inv t ks -> is_ikey k -> (32 <= fuel)%nat ->
  exists t',
    ibt_insert fuel t k v = Done t'
    /\ trie_inv t' (k :: ks)
    /\ ibt_show_value_w t' = ibt_show_value_w t
    /\ ibt_delete_entry t' = ibt_delete_entry t
    /\ leaf_nodes t' = wrapsz (leaf_nodes t + 1)
    /\ ((In k ks /\ root t' = root t /\ num_nodes t' = num_nodes t)
        \/ (~ In k ks
            /\ Permutation (entries (root t')) (mkEntry v k :: entries (root t))
            /\ exists d, 1 <= d <= 33
               /\ num_nodes t' = num_nodes t + d
               /\ Z.of_nat (count_nodes (root t'))
                  = Z.of_nat (count_nodes (root t)) + d)).
Proof.
  intros [Hwf Hnum Hkeys Hleaf Hempty] Hk Hf.
  assert (Hleaf' : wrapsz (leaf_nodes t + 1)
                   = wrapsz (Z.of_nat (List.length (k :: ks)))).
  { rewrite Hleaf, wrapsz_add_l. apply (f_equal wrapsz). cbn [List.length]. lia. }
  unfold ibt_insert. destruct (is_null (root t)) eqn:En.
  - (* the first key *)
    assert (ks = []) as -> by (apply Hempty; reflexivity).
    destruct (root t) as [|? ? ?] eqn:Er; [|discriminate].
    eexists. split; [reflexivity|]. cbn [root num_nodes leaf_nodes
      ibt_show_value_w ibt_delete_entry]. splits; auto.
    + constructor; cbn [root num_nodes leaf_nodes]; auto.
      * cbn. apply prefix_ikey. exact Hk.
      * intros k'. cbn. tauto.
      * split; discriminate.
    + right. splits.
      * intros [].
      * reflexivity.
      * exists 1. rewrite Hnum. cbn. lia.
  - (* a non-empty trie *)
    rewrite top_mask_eq.
    destruct (insert_iter_spec (root t) 32 fuel 0 k v (num_nodes t) 1 Hwf En
                (proj2 (prefix_ikey k) Hk) Hf)
      as (n' & nn' & bh' & Hrun & Hwf' & Hnn' & Hcase).
    rewrite Hrun. cbn [bind].
    eexists. split; [reflexivity|]. cbn [root num_nodes leaf_nodes
      ibt_show_value_w ibt_delete_entry].
    assert (Hne : ks <> []).
    { intros E. apply Hempty in E. congruence. }
    destruct Hcase as [(Hin & -> & ->)|(Hnin & Hperm & d & Hd & -> & Hcnt)].
    + splits; auto.
      * constructor; cbn [root num_nodes leaf_nodes]; auto.
        -- intros k'. rewrite Hkeys. cbn. split; [tauto|].
           intros [<-|H]; [apply Hkeys; exact Hin|exact H].
        -- rewrite En. split; discriminate.
      * left. splits; auto. apply Hkeys. exact Hin.
    + pose proof (count_nodes_fits _ Hwf') as Hfit.
      pose proof (count_nodes_fits _ Hwf) as Hfit0.
      assert (Hnn2 : wrapsz (num_nodes t + d) = num_nodes t + d).
      { apply wrapsz_small. rewrite Hnum. unfold SIZE_BITS.
        assert (2 ^ 33 < 2 ^ 64) by (apply Z.pow_lt_mono_r; lia). lia. }
      splits; auto.
      * constructor; cbn [root num_nodes leaf_nodes]; auto.
        -- rewrite Hnn2, Hnum. lia.
        -- intros k'. unfold keys. rewrite Hperm. cbn [map In key].
           fold (keys (root t)). rewrite Hkeys. tauto.
        -- rewrite Hnn'. split; discriminate.
      * right. splits.
        -- rewrite <- Hkeys. exact Hnin.
        -- exact Hperm.
        -- exists d. change (Z.of_nat 32 + 1) with 33 in Hd. splits; auto; lia.
Qed.

(** Every trie built through the interface satisfies the invariant. *)
Lemma built_inv (t : Trie_s) (ks : list ikey_t) : built t ks -> trie_inv t ks.
Proof.
  induction 1 as [sf df|t t' ks fuel k v Hb IH Hk Hins].
  - constructor; cbn; auto; try tauto.
  - destruct (insert_spec t ks (Nat.max fuel 32) k v IH Hk (Nat.le_max_r _ _))
      as (t'' & Hrun & Hinv & _).
    apply (insert_fuel_mono fuel (Nat.max fuel 32)) in Hins;
      [|apply Nat.le_max_l].
    rewrite Hrun in Hins. injection Hins as <-. exact Hinv.
Qed.

(** ** Searching *)

(** From a node of a well-shaped subtree the closest-match descent ends at
    a leaf of that subtree. *)
Lemma closest_match_leaf (n : Node) :
  forall mode, shape_ok n -> is_null n = false ->
    exists x, ibt_closest_match_rec n mode = Done (Some x) /\ In x (entries n).
Proof.
  induction n as [|e l IHl r IHr]; intros mode Hs Hn; [discriminate|].
  cbn [shape_ok] in Hs. destruct Hs as (He & Hl & Hr).
  cbn [ibt_closest_match_rec entries].
  destruct (is_null l && is_null r) eqn:E.
  - destruct e as [x|]; [|congruence]. exists x. split; [reflexivity|].
    apply in_or_app. right. left. reflexivity.
  - subst e. apply andb_false_iff in E.
    assert (Hleft : is_null l = false ->
              exists x, ibt_closest_match_rec l "l" = Done (Some x)
                        /\ In x (entries l ++ [] ++ entries r)).
    { intros Hl'. destruct (IHl "l"%char Hl Hl') as (x & Hx & Hin).
      exists x. split; [exact Hx|]. apply in_or_app. left. exact Hin. }
    assert (Hleft' : is_null l = false ->
              exists x, ibt_closest_match_rec l "r" = Done (Some x)
                        /\ In x (entries l ++ [] ++ entries r)).
    { intros Hl'. destruct (IHl "r"%char Hl Hl') as (x & Hx & Hin).
      exists x. split; [exact Hx|]. apply in_or_app. left. exact Hin. }
    assert (Hright : is_null r = false ->
              exists x, ibt_closest_match_rec r "l" = Done (Some x)
                        /\ In x (entries l ++ [] ++ entries r)).
    { intros Hr'. destruct (IHr "l"%char Hr Hr') as (x & Hx & Hin).
      exists x. split; [exact Hx|]. apply in_or_app. right. exact Hin. }
    assert (Hright' : is_null r = false ->
              exists x, ibt_closest_match_rec r "r" = Done (Some x)
                        /\ In x (entries l ++ [] ++ entries r)).
    { intros Hr'. destruct (IHr "r"%char Hr Hr') as (x & Hx & Hin).
      exists x. split; [exact Hx|]. apply in_or_app. right. exact Hin. }
    destruct (Ascii.eqb mode "l"), (is_null l) eqn:El, (is_null r) eqn:Er;
      cbn [negb]; auto; destruct E; discriminate.
Qed.

(** Searching a well-shaped subtree always ends at one of its leaves. *)
Lemma search_rec_leaf (n : Node) :
  forall k mask, shape_ok n -> is_null n = false ->
    exists x, ibt_search_rec n k mask = Done (Some x) /\ In x (entries n).
Proof.
  induction n as [|e l IHl r IHr]; intros k mask Hs Hn; [discriminate|].
  pose proof Hs as Hs0.
  cbn [shape_ok] in Hs. destruct Hs as (He & Hl & Hr).
  cbn [ibt_search_rec entries].
  destruct (is_null l && is_null r) eqn:E.
  - destruct e as [x|]; [|congruence]. exists x. split; [reflexivity|].
    apply in_or_app. right. left. reflexivity.
  - subst e. apply andb_false_iff in E.
    destruct (Z.land k mask =? 0).
    + destruct (is_null l) eqn:El.
      * destruct E as [E|E]; [discriminate|].
        destruct (closest_match_leaf r "l"%char Hr E) as (x & Hx & Hin).
        exists x. split; [exact Hx|]. apply in_or_app. right. exact Hin.
      * destruct (IHl k (Z.shiftr mask 1) Hl eq_refl) as (x & Hx & Hin).
        exists x. split; [exact Hx|]. apply in_or_app. left. exact Hin.
    + destruct (is_null r) eqn:Er.
      * destruct E as [E|E]; [|discriminate].
        destruct (closest_match_leaf l "r"%char Hl E) as (x & Hx & Hin).
        exists x. split; [exact Hx|]. apply in_or_app. left. exact Hin.
      * destruct (IHr k (Z.shiftr mask 1) Hr eq_refl) as (x & Hx & Hin).
        exists x. split; [exact Hx|]. apply in_or_app. right. exact Hin.
Qed.

Lemma keys_nonnull (n : Node) (k : ikey_t) : In k (keys n) -> is_null n = false.
Proof. destruct n; [intros []|reflexivity]. Qed.

(** ** Order of the stored keys *)

Lemma sorted_app (l1 l2 : list Z) :
  StronglySorted Z.lt l1 -> StronglySorted Z.lt l2 ->
  (forall a b, In a l1 -> In b l2 -> a < b) ->
  StronglySorted Z.lt (l1 ++ l2).
Proof.
  induction l1 as [|a l1 IH]; intros H1 H2 H12; [exact H2|].
  cbn [app]. inversion H1 as [|? ? Hs Hf]; subst. constructor.
  - apply IH; auto. intros x y Hx Hy. apply H12; [right; exact Hx|exact Hy].
  - apply Forall_app. split; [exact Hf|].
    apply Forall_forall. intros y Hy. apply H12; [left; reflexivity|exact Hy].
Qed.

Lemma sides_ordered (r : nat) (p a b : Z) :
  prefix a r = 2 * p -> prefix b r = 2 * p + 1 -> a < b.
Proof.
  intros Ha Hb. apply prefix_bounds in Ha. apply prefix_bounds in Hb.
  pose proof (Z.pow_pos_nonneg 2 (Z.of_nat r)). nia.
Qed.

(** Left to right, the keys of a well-formed subtree ascend strictly. *)
Lemma wf_sorted (n : Node) :
  forall r p, wf r p n -> StronglySorted Z.lt (keys n).
Proof.
  induction n as [|e l IHl rt IHrt]; intros r p Hwf; [constructor|].
  destruct (is_null l && is_null rt) eqn:E.
  - destruct (wf_leaf_inv _ _ _ _ _ Hwf E) as (-> & -> & x & -> & Hx).
    cbn. repeat constructor.
  - destruct (wf_branch_inv _ _ _ _ _ Hwf E) as (-> & r' & -> & Hl & Hr).
    rewrite keys_node. cbn [app]. apply sorted_app; eauto.
    intros a b Ha Hb. apply (sides_ordered r' p).
    + exact (wf_prefix _ _ _ _ Hl Ha).
    + exact (wf_prefix _ _ _ _ Hr Hb).
Qed.

Lemma sorted_keys_NoDup (es : list Entry_s) :
  StronglySorted Z.lt (map key es) -> NoDup es.
Proof.
  induction es as [|x es IH]; intros H; [constructor|].
  cbn [map] in H. inversion H as [|? ? Hs Hf]; subst. constructor; auto.
  intros Hin. rewrite Forall_forall in Hf.
  specialize (Hf (key x) (in_map key _ _ Hin)). lia.
Qed.

(** ** Display *)

Lemma show_rec_entries (t : Trie_s) (n : Node) :
  ibt_show_rec t n
  = flat_map (fun x => ibt_show_value t (Some x)) (entries n).
Proof.
  induction n as [|e l IHl r IHr]; [reflexivity|].
  cbn [ibt_show_rec entries]. rewrite !flat_map_app, IHl, IHr.
  destruct e; cbn; rewrite ?app_nil_r; reflexivity.
Qed.

Lemma count_internal_le (n : Node) : (count_internal n <= count_nodes n)%nat.
Proof.
  induction n as [|e l IHl r IHr]; cbn [count_internal count_nodes]; [lia|].
  destruct (is_null l && is_null r); lia.
Qed.

(** ** Facts about the specification-level notions *)

Lemma closest_match_biased (n : Node) (bias : side) :
  ibt_closest_match_rec n (mode_of bias)
  = match biased_descent bias n with
    | Some e => Done e
    | None => Fault
    end.
Proof.
  induction n as [|e l IHl r IHr]; [reflexivity|].
  cbn [ibt_closest_match_rec biased_descent].
  destruct (is_null l && is_null r); [reflexivity|].
  destruct bias; cbn [mode_of Ascii.eqb Bool.eqb].
  - destruct (is_null l); cbn [negb]; [exact IHr|exact IHl].
  - destruct (is_null r); cbn [negb]; [exact IHl|exact IHr].
Qed.

Lemma descent_search (key : ikey_t) (n : Node) (mask : ikey_t)
    (b : Node) (mask' : ikey_t) :
  exact_descent key n mask b mask' ->
  ibt_search_rec n key mask = ibt_search_rec b key mask'.
Proof.
  induction 1 as [|n mask b mask' Hc Hreq Hd IH]; [reflexivity|].
  rewrite <- IH. destruct n as [|e l r]; [discriminate|].
  cbn [has_children] in Hc. apply negb_true_iff in Hc.
  cbn [ibt_search_rec]. rewrite Hc.
  unfold required in *. destruct (Z.land key mask =? 0);
    cbn [child] in *; rewrite Hreq; reflexivity.
Qed.

Lemma descent_shape_ok (key : ikey_t) (n : Node) (mask : ikey_t)
    (b : Node) (mask' : ikey_t) :
  exact_descent key n mask b mask' -> shape_ok n -> shape_ok b.
Proof.
  induction 1 as [|n mask b mask' Hc Hreq Hd IH]; [auto|].
  intros Hs. apply IH. destruct n as [|e l r]; [exact I|].
  cbn [shape_ok] in Hs. destruct Hs as (_ & Hl & Hr).
  destruct (required key mask); assumption.
Qed.

Lemma diversion (key mask : ikey_t) (b : Node) :
  has_children b = true ->
  is_null (child (required key mask) b) = true ->
  ibt_search_rec b key mask
  = ibt_closest_match_rec (child (other_side (required key mask)) b)
      (mode_of (required key mask))
  /\ biased_descent (required key mask) b
     = biased_descent (required key mask)
         (child (other_side (required key mask)) b)
  /\ is_null (child (other_side (required key mask)) b) = false.
Proof.
  intros Hc Hreq. destruct b as [|e l r]; [discriminate|].
  cbn [has_children] in Hc. apply negb_true_iff in Hc.
  cbn [ibt_search_rec biased_descent]. rewrite Hc.
  unfold required in *. destruct (Z.land key mask =? 0);
    cbn [child other_side mode_of] in *; rewrite Hreq in *;
    cbn [andb] in Hc; auto.
  rewrite andb_true_r in Hc. auto.
Qed.

Lemma subnode_shape_ok (s n : Node) :
  subnode s n -> shape_ok n -> shape_ok s /\ leaf_or_branch s.
Proof.
  induction 1 as [e l r|s e l r Hs IH|s e l r Hs IH]; intros Hok.
  - split; [exact Hok|]. cbn [shape_ok] in Hok. destruct Hok as (He & _).
    cbn [leaf_or_branch]. destruct l, r; cbn in He; auto;
      right; split; auto; (left; discriminate) || (right; discriminate).
  - apply IH. cbn [shape_ok] in Hok. tauto.
  - apply IH. cbn [shape_ok] in Hok. tauto.
Qed.

Lemma subnode_nonnull (s n : Node) : subnode s n -> is_null s = false.
Proof. induction 1; auto. Qed.

Lemma entry_subnode (n : Node) (x : Entry_s) :
  shape_ok n -> In x (entries n) -> subnode (Node_s (Some x) NULL NULL) n.
Proof.
  induction n as [|e l IHl r IHr]; intros Hok Hin; [destruct Hin|].
  cbn [shape_ok] in Hok. destruct Hok as (He & Hl & Hr).
  cbn [entries] in Hin. apply in_app_or in Hin. destruct Hin as [Hin|Hin].
  - apply subnode_left. auto.
  - apply in_app_or in Hin. destruct Hin as [Hin|Hin].
    + destruct e as [y|]; [|destruct Hin]. destruct Hin as [->|[]].
      destruct l, r; cbn in He; try discriminate. constructor.
    + apply subnode_right. auto.
Qed.

Lemma insert_all_built (fuel : nat) (kvs : list (ikey_t * ival_t)) :
  forall (t t' : Trie_s) (ks : list ikey_t),
    built t ks -> Forall is_ikey (map fst kvs) ->
    insert_all fuel t kvs = Done t' ->
    built t' (rev (map fst kvs) ++ ks).
Proof.
  induction kvs as [|[k v] kvs IH]; intros t t' ks Hb Hk H.
  - injection H as <-. exact Hb.
  - cbn [insert_all] in H. destruct (ibt_insert fuel t k v) as [t1| |] eqn:E;
      try discriminate.
    cbn [bind] in H. cbn [map fst] in Hk. inversion Hk as [|? ? Hk1 Hk2]; subst.
    cbn [map fst rev]. rewrite <- app_assoc. cbn [app].
    apply (IH t1 t' (k :: ks)); auto.
    exact (built_insert t t1 ks fuel k v Hb Hk1 E).
Qed.

Lemma built_trie_1 : built trie_1 [1].
Proof.
  apply (insert_all_built 32 [(1, 100)] (ibt_create (Some 1) (Some 2)) trie_1 []).
  - constructor.
  - repeat constructor; unfold is_ikey, UINT_BITS; cbn; lia.
  - vm_compute. reflexivity.
Qed.

Lemma built_trie_1_3 : built trie_1_3 [3; 1].
Proof.
  apply (insert_all_built 32 [(1, 100); (3, 300)]
           (ibt_create (Some 1) (Some 2)) trie_1_3 []).
  - constructor.
  - repeat constructor; unfold is_ikey, UINT_BITS; cbn; lia.
  - vm_compute. reflexivity.
Qed.

Lemma present_descent (n : Node) :
  forall r p k, wf r p n -> In k (keys n) ->
    exists x mask',
      exact_descent k n (mask_of r) (Node_s (Some x) NULL NULL) mask'
      /\ key x = k.
Proof.
  induction n as [|e l IHl rt IHrt]; intros r p k Hwf Hin; [destruct Hin|].
  destruct (is_null l && is_null rt) eqn:E.
  - destruct (wf_leaf_inv _ _ _ _ _ Hwf E) as (-> & -> & x & -> & Hx).
    rewrite keys_node in Hin. cbn in Hin. destruct Hin as [Hin|[]].
    exists x, (mask_of r). split; [constructor|exact Hin].
  - destruct (wf_branch_inv _ _ _ _ _ Hwf E) as (-> & r' & -> & Hl & Hr).
    assert (Hc : has_children (Node_s None l rt) = true)
      by (cbn [has_children]; rewrite E; reflexivity).
    rewrite keys_node in Hin. cbn [app] in Hin. apply in_app_or in Hin.
    destruct Hin as [Hin|Hin].
    + pose proof (wf_prefix _ _ _ _ Hl Hin) as Hp.
      destruct (prefix_succ k r' p false) as [_ Hb]; [cbn [Z.b2z]; lia|].
      destruct (IHl _ _ _ Hl Hin) as (x & m' & Hd & Hkx).
      exists x, m'. split; [|exact Hkx].
      assert (Hreq : required k (mask_of (S r')) = SideLeft)
        by (unfold required; rewrite land_mask_zero, Hb; reflexivity).
      apply descent_down; rewrite ?Hreq; cbn [child]; auto.
      * exact (keys_nonnull _ _ Hin).
      * rewrite mask_of_shiftr. exact Hd.
    + pose proof (wf_prefix _ _ _ _ Hr Hin) as Hp.
      destruct (prefix_succ k r' p true) as [_ Hb]; [cbn [Z.b2z]; lia|].
      destruct (IHrt _ _ _ Hr Hin) as (x & m' & Hd & Hkx).
      exists x, m'. split; [|exact Hkx].
      assert (Hreq : required k (mask_of (S r')) = SideRight)
        by (unfold required; rewrite land_mask_zero, Hb; reflexivity).
      apply descent_down; rewrite ?Hreq; cbn [child]; auto.
      * exact (keys_nonnull _ _ Hin).
      * rewrite mask_of_shiftr. exact Hd.
Qed.

Lemma built_nonnull (t : Trie_s) (ks : list ikey_t) (k : ikey_t) :
  built t ks -> In k ks -> is_null (root t) = false.
Proof.
  intros Hb Hin. apply built_inv in Hb. destruct Hb as [_ _ Hkeys _ _].
  apply Hkeys in Hin. exact (keys_nonnull _ _ Hin).
Qed.

(** ** Worked examples *)

(** With keys 1 and 3 stored the trie has 33 nodes, 31 of them internal, and
    [ibt_node_count] says 31; a second insertion of key 3 changes no node,
    and [ibt_node_count] then says 30. *)
Example duplicate_insert_node_count :
  exists t',
    ibt_insert 32 trie_1_3 3 301 = Done t'
    /\ root t' = root trie_1_3
    /\ count_internal (root trie_1_3) = 31%nat
    /\ ibt_node_count trie_1_3 = 31
    /\ ibt_node_count t' = 30
    /\ ibt_size trie_1_3 = 2
    /\ ibt_size t' = 3.
Proof. eexists. split; [vm_compute; reflexivity|]. splits; reflexivity. Qed.

(** The key 2 is not stored next to 1 and 3; its exact descent ends at the
    leaf of key 3, which the search returns. *)
Example search_2_among_1_and_3 :
  ibt_search trie_1_3 2 = Returned (Some {| value := 300; key := 3 |}) trie_1_3.
Proof. vm_compute. reflexivity. Qed.

(** * The properties stated by the specification *)

(** C1: in a trie built by [ibt_create] and insertions, searching for a
    key that was inserted returns the Entry with that key: the exact
    bit-descent from the root ends at the leaf that holds the key. *)
Theorem C1_search_finds_inserted_key (t : Trie_s) (ks : list ikey_t) (k : ikey_t) :
  built t ks -> In k ks ->
  exists x mask',
    exact_descent k (root t) top_mask (Node_s (Some x) NULL NULL) mask'
    /\ key x = k
    /\ ibt_search t k = Returned (Some x) t.
Proof.
  intros Hb Hin. pose proof (built_nonnull t ks k Hb Hin) as Hnn.
  apply built_inv in Hb. destruct Hb as [Hwf _ Hkeys _ _].
  apply Hkeys in Hin.
  destruct (present_descent _ _ _ _ Hwf Hin) as (x & m' & Hd & Hkx).
  rewrite <- top_mask_eq in Hd.
  exists x, m'. splits; auto.
  unfold ibt_search. rewrite Hnn, (descent_search _ _ _ _ _ Hd). reflexivity.
Qed.

Lemma C1_witness :
  built trie_1_3 [3; 1] /\ In 3 [3; 1]
  /\ exists x mask',
       exact_descent 3 (root trie_1_3) top_mask (Node_s (Some x) NULL NULL) mask'
       /\ key x = 3
       /\ ibt_search trie_1_3 3 = Returned (Some x) trie_1_3.
Proof.
  split; [exact built_trie_1_3|]. split; [left; reflexivity|].
  apply (C1_search_finds_inserted_key trie_1_3 [3; 1] 3).
  - exact built_trie_1_3.
  - left. reflexivity.
Defined.

(** C2: when the exact descent for a key reaches a branch whose required
    child is absent, the search continues in closest-match mode with the
    bias of the missing side (mode ['l'] for a missing left child, ['r']
    for a missing right child); from that branch it goes to the child on
    the side of the bias when present and to the other child otherwise,
    down to a leaf, and returns that leaf's Entry. *)
Theorem C2_closest_match_bias (t : Trie_s) (ks : list ikey_t) (key : ikey_t)
    (b : Node) (mask : ikey_t) :
  built t ks ->
  exact_descent key (root t) top_mask b mask ->
  has_children b = true ->
  is_null (child (required key mask) b) = true ->
  ibt_search_rec b key mask
  = ibt_closest_match_rec (child (other_side (required key mask)) b)
      (mode_of (required key mask))
  /\ exists x,
       biased_descent (required key mask) b = Some (Some x)
       /\ subnode (Node_s (Some x) NULL NULL) b
       /\ ibt_search t key = Returned (Some x) t.
Proof.
  intros Hb Hd Hc Hreq.
  apply built_inv in Hb. destruct Hb as [Hwf _ _ _ _].
  apply wf_shape_ok in Hwf.
  pose proof (descent_shape_ok _ _ _ _ _ Hd Hwf) as Hsb.
  destruct (diversion key mask b Hc Hreq) as (Hdiv & Hbias & Hother).
  split; [exact Hdiv|].
  assert (Hso : shape_ok (child (other_side (required key mask)) b)).
  { destruct b as [|e l r]; [exact I|]. cbn [shape_ok] in Hsb.
    destruct Hsb as (_ & Hl & Hr).
    destruct (required key mask); assumption. }
  destruct (closest_match_leaf _ (mode_of (required key mask)) Hso Hother)
    as (x & Hx & Hin).
  exists x. splits.
  - rewrite Hbias. rewrite closest_match_biased in Hx.
    destruct (biased_descent (required key mask)
                (child (other_side (required key mask)) b)) as [e|];
      [|discriminate Hx].
    injection Hx as ->. reflexivity.
  - apply entry_subnode; [exact Hsb|].
    destruct b as [|e l r]; [discriminate|]. cbn [entries].
    destruct (required key mask); cbn [child other_side] in Hin.
    + apply in_or_app. right. apply in_or_app. right. exact Hin.
    + apply in_or_app. left. exact Hin.
  - unfold ibt_search.
    assert (Hroot : is_null (root t) = false).
    { inversion Hd as [n m|n m b' m' Hc' _ _]; subst.
      - destruct (root t); [discriminate|reflexivity].
      - destruct (root t); [discriminate|reflexivity]. }
    rewrite Hroot, (descent_search _ _ _ _ _ Hd), Hdiv, Hx. reflexivity.
Qed.

Lemma C2_witness :
  built trie_1_3 [3; 1]
  /\ exact_descent (2 ^ 31) (root trie_1_3) top_mask (root trie_1_3) top_mask
  /\ has_children (root trie_1_3) = true
  /\ is_null (child (required (2 ^ 31) top_mask) (root trie_1_3)) = true
  /\ ibt_search_rec (root trie_1_3) (2 ^ 31) top_mask
     = ibt_closest_match_rec
         (child (other_side (required (2 ^ 31) top_mask)) (root trie_1_3))
         (mode_of (required (2 ^ 31) top_mask))
  /\ exists x,
       biased_descent (required (2 ^ 31) top_mask) (root trie_1_3)
       = Some (Some x)
       /\ subnode (Node_s (Some x) NULL NULL) (root trie_1_3)
       /\ ibt_search trie_1_3 (2 ^ 31) = Returned (Some x) trie_1_3.
Proof.
  split; [exact built_trie_1_3|]. split; [constructor|].
  split; [reflexivity|]. split; [vm_compute; reflexivity|].
  apply (C2_closest_match_bias trie_1_3 [3; 1] (2 ^ 31) (root trie_1_3) top_mask).
  - exact built_trie_1_3.
  - constructor.
  - reflexivity.
  - vm_compute. reflexivity.
Defined.

(** C3: in a trie built by [ibt_create] and insertions every node is a
    leaf (an Entry, no child) or a branch (no Entry, at least one child),
    so a node without children holds an Entry; every insertion returns and
    keeps this; and from every node the closest-match descent returns the
    Entry of a leaf below it. *)
Theorem C3_leaf_or_branch_invariant (t : Trie_s) (ks : list ikey_t) :
  built t ks ->
  (forall s, subnode s (root t) -> leaf_or_branch s)
  /\ (forall e, subnode (Node_s e NULL NULL) (root t) -> e <> None)
  /\ (forall k v, is_ikey k ->
        exists t', ibt_insert 32 t k v = Done t'
                   /\ forall s, subnode s (root t') -> leaf_or_branch s)
  /\ (forall s mode, subnode s (root t) ->
        exists x, ibt_closest_match_rec s mode = Done (Some x)
                  /\ subnode (Node_s (Some x) NULL NULL) s).
Proof.
  intros Hb. apply built_inv in Hb. pose proof Hb as [Hwf _ _ _ _].
  pose proof (wf_shape_ok _ _ _ Hwf) as Hok. splits.
  - intros s Hs. exact (proj2 (subnode_shape_ok _ _ Hs Hok)).
  - intros e Hs. destruct (subnode_shape_ok _ _ Hs Hok) as [_ Hlb].
    cbn [leaf_or_branch] in Hlb. destruct Hlb as [(He & _)|(_ & [H|H])];
      [exact He|congruence|congruence].
  - intros k v Hk.
    destruct (insert_spec t ks 32 k v Hb Hk (Nat.le_refl _))
      as (t' & Hrun & [Hwf' _ _ _ _] & _).
    exists t'. split; [exact Hrun|]. intros s Hs.
    exact (proj2 (subnode_shape_ok _ _ Hs (wf_shape_ok _ _ _ Hwf'))).
  - intros s mode Hs. destruct (subnode_shape_ok _ _ Hs Hok) as [Hss _].
    pose proof (subnode_nonnull _ _ Hs) as Hn.
    destruct (closest_match_leaf s mode Hss Hn) as (x & Hx & Hin).
    exists x. split; [exact Hx|]. exact (entry_subnode _ _ Hss Hin).
Qed.

Lemma C3_witness :
  built trie_1_3 [3; 1]
  /\ (forall s, subnode s (root trie_1_3) -> leaf_or_branch s)
  /\ (forall e, subnode (Node_s e NULL NULL) (root trie_1_3) -> e <> None)
  /\ (forall k v, is_ikey k ->
        exists t', ibt_insert 32 trie_1_3 k v = Done t'
                   /\ forall s, subnode s (root t') -> leaf_or_branch s)
  /\ (forall s mode, subnode s (root trie_1_3) ->
        exists x, ibt_closest_match_rec s mode = Done (Some x)
                  /\ subnode (Node_s (Some x) NULL NULL) s).
Proof.
  split; [exact built_trie_1_3|].
  apply (C3_leaf_or_branch_invariant trie_1_3 [3; 1]).
  exact built_trie_1_3.
Defined.

(** C4: inserting a key that is already stored creates no node and no
    Entry (the tree and the count of created nodes stay as they are) and
    adds one to [ibt_size]; [ibt_node_count], computed from the two
    counters, does not stay as it was: it goes down by one, modulo the
    word size. *)
Theorem C4_duplicate_insert_counters (t : Trie_s) (ks : list ikey_t)
    (k : ikey_t) (v : ival_t) :
  built t ks -> is_ikey k -> In k ks ->
  exists t',
    ibt_insert 32 t k v = Done t'
    /\ root t' = root t
    /\ num_nodes t' = num_nodes t
    /\ ibt_size t' = wrapsz (ibt_size t + 1)
    /\ ibt_node_count t' = wrapsz (ibt_node_count t - 1)
    /\ ibt_node_count t' <> ibt_node_count t.
Proof.
  intros Hb Hk Hin. apply built_inv in Hb.
  destruct (insert_spec t ks 32 k v Hb Hk (Nat.le_refl _))
    as (t' & Hrun & _ & _ & _ & Hleaf & Hcase).
  destruct Hcase as [(_ & Hroot & Hnum)|(Hnin & _)]; [|contradiction].
  assert (Hnc : ibt_node_count t' = wrapsz (ibt_node_count t - 1)).
  { unfold ibt_node_count. rewrite Hnum, Hleaf. unfold wrapsz.
    rewrite Zminus_mod_idemp_r, Zminus_mod_idemp_l. f_equal. lia. }
  exists t'. splits; auto.
  rewrite Hnc. unfold ibt_node_count.
  set (a := num_nodes t - leaf_nodes t). unfold wrapsz.
  rewrite Zminus_mod_idemp_l. intros Heq.
  assert (H1 : (a - (a - 1)) mod 2 ^ SIZE_BITS = 0).
  { rewrite Zminus_mod, Heq, Z.sub_diag. reflexivity. }
  replace (a - (a - 1)) with 1 in H1 by lia. discriminate H1.
Qed.

Lemma C4_witness :
  built trie_1_3 [3; 1] /\ is_ikey 3 /\ In 3 [3; 1]
  /\ exists t',
       ibt_insert 32 trie_1_3 3 301 = Done t'
       /\ root t' = root trie_1_3
       /\ num_nodes t' = num_nodes trie_1_3
       /\ ibt_size t' = wrapsz (ibt_size trie_1_3 + 1)
       /\ ibt_node_count t' = wrapsz (ibt_node_count trie_1_3 - 1)
       /\ ibt_node_count t' <> ibt_node_count trie_1_3.
Proof.
  split; [exact built_trie_1_3|].
  split; [unfold is_ikey, UINT_BITS; lia|]. split; [left; reflexivity|].
  apply (C4_duplicate_insert_counters trie_1_3 [3; 1] 3 301).
  - exact built_trie_1_3.
  - unfold is_ikey, UINT_BITS. lia.
  - left. reflexivity.
Defined.

(** C5, as the code has it: after 0x00000001 and 0x00000003 have been
    inserted into an empty trie, [ibt_height] is 32: the root level, the
    30 levels of the bits the keys share, and the level of the two
    leaves. *)
Theorem C5_height_after_1_and_3 (sf df : option fnptr) (v1 v3 : ival_t) :
  exists t,
    insert_all 32 (ibt_create sf df) [(1, v1); (3, v3)] = Done t
    /\ ibt_height t = 32.
Proof. eexists. split; vm_compute; reflexivity. Qed.

(** C5 as stated (height 31) fails. *)
Lemma C5_counterexample :
  exists t,
    insert_all 32 (ibt_create None None) [(1, 100); (3, 300)] = Done t
    /\ ibt_height t <> 31.
Proof. eexists. split; [vm_compute; reflexivity|]. vm_compute. discriminate. Qed.

(** C6, as the code has it: an insertion into a trie built through the
    interface returns and creates at most 33 nodes: the counter of created
    nodes grows by at most 33, and by the number of nodes added to the
    tree. *)
Theorem C6_insert_creates_at_most_33_nodes (t : Trie_s) (ks : list ikey_t)
    (k : ikey_t) (v : ival_t) :
  built t ks -> is_ikey k ->
  (exists t', ibt_insert 32 t k v = Done t')
  /\ forall fuel t',
       ibt_insert fuel t k v = Done t' ->
       num_nodes t <= num_nodes t' <= num_nodes t + 33
       /\ num_nodes t' - num_nodes t
          = Z.of_nat (count_nodes (root t')) - Z.of_nat (count_nodes (root t)).
Proof.
  intros Hb Hk. apply built_inv in Hb. split.
  - destruct (insert_spec t ks 32 k v Hb Hk (Nat.le_refl _)) as (t' & Hrun & _).
    eauto.
  - intros fuel t' Hrun.
    destruct (insert_spec t ks (Nat.max fuel 32) k v Hb Hk (Nat.le_max_r _ _))
      as (t'' & Hrun' & _ & _ & _ & _ & Hcase).
    apply (insert_fuel_mono fuel (Nat.max fuel 32)) in Hrun;
      [|apply Nat.le_max_l].
    rewrite Hrun' in Hrun. injection Hrun as <-.
    destruct Hcase as [(_ & -> & ->)|(_ & _ & d & Hd & -> & Hcnt)]; lia.
Qed.

Lemma C6_witness :
  built trie_1 [1] /\ is_ikey 3
  /\ (exists t', ibt_insert 32 trie_1 3 300 = Done t')
  /\ forall fuel t',
       ibt_insert fuel trie_1 3 300 = Done t' ->
       num_nodes trie_1 <= num_nodes t' <= num_nodes trie_1 + 33
       /\ num_nodes t' - num_nodes trie_1
          = Z.of_nat (count_nodes (root t'))
            - Z.of_nat (count_nodes (root trie_1)).
Proof.
  split; [exact built_trie_1|]. split; [unfold is_ikey, UINT_BITS; lia|].
  apply (C6_insert_creates_at_most_33_nodes trie_1 [1] 3 300).
  - exact built_trie_1.
  - unfold is_ikey, UINT_BITS. lia.
Defined.

(** C6 as stated (at most 2 nodes) fails: with key 0 stored, inserting
    key 1 creates 33 nodes. *)
Lemma C6_counterexample :
  exists t t',
    insert_all 32 (ibt_create None None) [(0, 100)] = Done t
    /\ ibt_insert 32 t 1 101 = Done t'
    /\ num_nodes t' = num_nodes t + 33
    /\ ~ num_nodes t' <= num_nodes t + 2.
Proof.
  do 2 eexists. split; [vm_compute; reflexivity|].
  split; [vm_compute; reflexivity|]. split; [reflexivity|].
  vm_compute. intros H. apply H. reflexivity.
Qed.

(** C7: a search in a trie without a root returns no Entry: the error
    message is written to stderr, the trie is destroyed and the process
    exits with [EXIT_FAILURE]. *)
Theorem C7_search_empty_trie_is_fatal (t : Trie_s) (key : ikey_t) :
  root t = NULL ->
  ibt_search t key = Exited (EvStderr empty_trie_msg :: ibt_destroy t) EXIT_FAILURE
  /\ ibt_destroy t = [EvFreeTrie]
  /\ forall e t', ibt_search t key <> Returned e t'.
Proof.
  intros Hr. unfold ibt_search, ibt_destroy. rewrite Hr. cbn. splits; auto.
  intros e t'. discriminate.
Qed.

Lemma C7_witness :
  root (ibt_create None None) = NULL
  /\ ibt_search (ibt_create None None) 5
     = Exited (EvStderr empty_trie_msg :: ibt_destroy (ibt_create None None))
         EXIT_FAILURE
  /\ ibt_destroy (ibt_create None None) = [EvFreeTrie]
  /\ forall e t', ibt_search (ibt_create None None) 5 <> Returned e t'.
Proof.
  split; [reflexivity|].
  apply (C7_search_empty_trie_is_fatal (ibt_create None None) 5).
  reflexivity.
Defined.

(** C8: on a non-empty trie built through the interface a search for any
    key returns an Entry stored in the trie, and the trie afterwards is
    the trie before: nodes, Entries, counters and callbacks are as they
    were, nothing is written and the process does not exit. *)
Theorem C8_search_returns_stored_entry_and_preserves_trie (t : Trie_s)
    (ks : list ikey_t) (key : ikey_t) :
  built t ks -> is_null (root t) = false ->
  exists x t',
    ibt_search t key = Returned (Some x) t'
    /\ In x (entries (root t))
    /\ subnode (Node_s (Some x) NULL NULL) (root t)
    /\ t' = t
    /\ root t' = root t
    /\ ibt_size t' = ibt_size t
    /\ ibt_node_count t' = ibt_node_count t
    /\ ibt_height t' = ibt_height t
    /\ ibt_show_value_w t' = ibt_show_value_w t
    /\ ibt_delete_entry t' = ibt_delete_entry t.
Proof.
  intros Hb Hn. apply built_inv in Hb. destruct Hb as [Hwf _ _ _ _].
  apply wf_shape_ok in Hwf.
  destruct (search_rec_leaf (root t) key top_mask Hwf Hn) as (x & Hx & Hin).
  exists x, t. unfold ibt_search. rewrite Hn, Hx. splits; auto.
  exact (entry_subnode _ _ Hwf Hin).
Qed.

Lemma C8_witness :
  built trie_1_3 [3; 1] /\ is_null (root trie_1_3) = false
  /\ exists x t',
       ibt_search trie_1_3 2 = Returned (Some x) t'
       /\ In x (entries (root trie_1_3))
       /\ subnode (Node_s (Some x) NULL NULL) (root trie_1_3)
       /\ t' = trie_1_3
       /\ root t' = root trie_1_3
       /\ ibt_size t' = ibt_size trie_1_3
       /\ ibt_node_count t' = ibt_node_count trie_1_3
       /\ ibt_height t' = ibt_height trie_1_3
       /\ ibt_show_value_w t' = ibt_show_value_w trie_1_3
       /\ ibt_delete_entry t' = ibt_delete_entry trie_1_3.
Proof.
  split; [exact built_trie_1_3|]. split; [reflexivity|].
  apply (C8_search_returns_stored_entry_and_preserves_trie trie_1_3 [3; 1] 2).
  - exact built_trie_1_3.
  - reflexivity.
Defined.

(** C9: on a trie built by insertions [ibt_show] goes through the tree in
    order (left subtree, the node's own Entry if it has one, right
    subtree) and hands every stored Entry exactly once to the display
    function; the keys come in strictly ascending unsigned order and are
    the keys that were inserted. *)
Theorem C9_show_in_ascending_key_order (t : Trie_s) (ks : list ikey_t) :
  built t ks ->
  (forall e l r,
      ibt_show_rec t (Node_s e l r)
      = ibt_show_rec t l
        ++ match e with Some _ => ibt_show_value t e | None => [] end
        ++ ibt_show_rec t r)
  /\ ibt_show t
     = flat_map (fun x => ibt_show_value t (Some x)) (entries (root t))
  /\ (forall f, ibt_show_value_w t = Some f ->
        ibt_show t = map (fun x => EvShow f (Some x)) (entries (root t)))
  /\ NoDup (entries (root t))
  /\ StronglySorted Z.lt (map key (entries (root t)))
  /\ Forall is_ikey (map key (entries (root t)))
  /\ (forall k, In k (map key (entries (root t))) <-> In k ks).
Proof.
  intros Hb. apply built_inv in Hb. destruct Hb as [Hwf _ Hkeys _ _].
  pose proof (wf_sorted _ _ _ Hwf) as Hsorted.
  splits; auto.
  - unfold ibt_show. apply show_rec_entries.
  - intros f Hf. unfold ibt_show. rewrite show_rec_entries.
    unfold ibt_show_value. rewrite Hf.
    induction (entries (root t)) as [|x es IH]; [reflexivity|].
    cbn. rewrite IH. reflexivity.
  - apply sorted_keys_NoDup. exact Hsorted.
  - apply Forall_forall. intros k Hin. apply prefix_ikey.
    exact (wf_prefix _ _ _ _ Hwf Hin).
Qed.

Lemma C9_witness :
  built trie_1_3 [3; 1]
  /\ (forall e l r,
        ibt_show_rec trie_1_3 (Node_s e l r)
        = ibt_show_rec trie_1_3 l
          ++ match e with Some _ => ibt_show_value trie_1_3 e | None => [] end
          ++ ibt_show_rec trie_1_3 r)
  /\ ibt_show trie_1_3
     = flat_map (fun x => ibt_show_value trie_1_3 (Some x))
         (entries (root trie_1_3))
  /\ (forall f, ibt_show_value_w trie_1_3 = Some f ->
        ibt_show trie_1_3
        = map (fun x => EvShow f (Some x)) (entries (root trie_1_3)))
  /\ NoDup (entries (root trie_1_3))
  /\ StronglySorted Z.lt (map key (entries (root trie_1_3)))
  /\ Forall is_ikey (map key (entries (root trie_1_3)))
  /\ (forall k, In k (map key (entries (root trie_1_3))) <-> In k [3; 1]).
Proof.
  split; [exact built_trie_1_3|].
  apply (C9_show_in_ascending_key_order trie_1_3 [3; 1]).
  exact built_trie_1_3.
Defined.

(** C10: [ibt_node_count] is the difference [num_nodes - leaf_nodes]
    reduced modulo the word size; [leaf_nodes] counts the calls of
    [ibt_insert], duplicates included, and [num_nodes] the nodes in the
    tree; whenever [leaf_nodes] exceeds [num_nodes] the result has wrapped
    around and is larger than the number of internal nodes.  Inserting one
    key three times into an empty trie does this: the result is
    [2^64 - 2] and the trie has no internal node. *)
Theorem C10_node_count_wraps_around (t : Trie_s) (ks : list ikey_t) :
  built t ks ->
  ibt_node_count t = (num_nodes t - leaf_nodes t) mod 2 ^ SIZE_BITS
  /\ leaf_nodes t = Z.of_nat (List.length ks) mod 2 ^ SIZE_BITS
  /\ num_nodes t = Z.of_nat (count_nodes (root t))
  /\ (num_nodes t < leaf_nodes t ->
        ibt_node_count t = 2 ^ SIZE_BITS - (leaf_nodes t - num_nodes t)
        /\ Z.of_nat (count_internal (root t)) < ibt_node_count t)
  /\ (forall sf df k v1 v2 v3, is_ikey k ->
        exists t3,
          insert_all 32 (ibt_create sf df) [(k, v1); (k, v2); (k, v3)] = Done t3
          /\ leaf_nodes t3 = 3 /\ num_nodes t3 = 1
          /\ ibt_node_count t3 = 2 ^ SIZE_BITS - 2
          /\ count_internal (root t3) = 0%nat).
Proof.
  intros Hb. apply built_inv in Hb. destruct Hb as [Hwf Hnum _ Hleaf _].
  splits; auto.
  - intros Hlt.
    assert (Hrange : 0 <= leaf_nodes t < 2 ^ SIZE_BITS).
    { rewrite Hleaf. apply Z.mod_pos_bound. reflexivity. }
    assert (Hnc : ibt_node_count t = 2 ^ SIZE_BITS - (leaf_nodes t - num_nodes t)).
    { unfold ibt_node_count, wrapsz.
      rewrite <- (Z.mod_add _ 1) by discriminate.
      rewrite Z.mod_small by lia. lia. }
    split; [exact Hnc|]. rewrite Hnc.
    pose proof (count_internal_le (root t)). lia.
  - intros sf df k v1 v2 v3 Hk. cbn [insert_all].
    unfold ibt_insert at 1. cbn [root ibt_create is_null bind].
    unfold ibt_insert at 1. cbn [root is_null ibt_make_leaf bind
      ibt_insert_iter ibt_make_entry andb key negb].
    rewrite Z.eqb_refl. cbn [negb bind].
    unfold ibt_insert at 1. cbn [root is_null ibt_make_leaf bind
      ibt_insert_iter ibt_make_entry andb key negb].
    rewrite Z.eqb_refl. cbn [negb bind].
    eexists. split; [reflexivity|].
    cbn [leaf_nodes num_nodes root ibt_create]. splits; reflexivity.
Qed.

Lemma C10_witness :
  built trie_1_3 [3; 1]
  /\ ibt_node_count trie_1_3
     = (num_nodes trie_1_3 - leaf_nodes trie_1_3) mod 2 ^ SIZE_BITS
  /\ leaf_nodes trie_1_3 = Z.of_nat (List.length [3; 1]) mod 2 ^ SIZE_BITS
  /\ num_nodes trie_1_3 = Z.of_nat (count_nodes (root trie_1_3))
  /\ (num_nodes trie_1_3 < leaf_nodes trie_1_3 ->
        ibt_node_count trie_1_3
        = 2 ^ SIZE_BITS - (leaf_nodes trie_1_3 - num_nodes trie_1_3)
        /\ Z.of_nat (count_internal (root trie_1_3)) < ibt_node_count trie_1_3)
  /\ (forall sf df k v1 v2 v3, is_ikey k ->
        exists t3,
          insert_all 32 (ibt_create sf df) [(k, v1); (k, v2); (k, v3)] = Done t3
          /\ leaf_nodes t3 = 3 /\ num_nodes t3 = 1
          /\ ibt_node_count t3 = 2 ^ SIZE_BITS - 2
          /\ count_internal (root t3) = 0%nat).
Proof.
  split; [exact built_trie_1_3|].
  apply (C10_node_count_wraps_around trie_1_3 [3; 1]).
  exact built_trie_1_3.
Defined.

(** * Further properties of the code *)

(** ** Height *)

Lemma wf_height (n : Node) :
  forall r p, wf r p n -> (tree_height n <= S r)%nat.
Proof.
  induction n as [|e l IHl rt IHrt]; intros r p H; cbn [tree_height]; [lia|].
  destruct (is_null l && is_null rt) eqn:E.
  - destruct (wf_leaf_inv _ _ _ _ _ H E) as (-> & -> & _). cbn. lia.
  - destruct (wf_branch_inv _ _ _ _ _ H E) as (-> & r' & -> & Hl & Hr).
    specialize (IHl _ _ Hl). specialize (IHrt _ _ Hr). lia.
Qed.

(** What [ibt_make_branch] hangs below an empty node is a path that ends in
    two leaves: it has one node more than its height. *)
Lemma make_branch_chain (fuel : nat) :
  forall (k1 k2 mask : ikey_t) (v1 : ival_t) (e2 : Entry) (nc bh : size_t)
         (n' : Node) (nc' bh' : size_t),
    ibt_make_branch fuel (Node_s None NULL NULL) k1 k2 mask v1 e2 nc bh
    = Done (n', nc', bh') ->
    count_nodes n' = S (tree_height n').
Proof.
  induction fuel as [|fuel IH]; intros k1 k2 mask v1 e2 nc bh n' nc' bh' H;
    [discriminate|].
  cbn [ibt_make_branch] in H.
  destruct (Z.land k1 mask =? Z.land k2 mask).
  - destruct (Z.land k1 mask =? 0);
      match type of H with
      | bind ?m _ = _ => destruct m as [[[sub a] b]| |] eqn:E; try discriminate
      end;
      cbn [bind] in H; injection H as <- _ _;
      apply IH in E; cbn [count_nodes tree_height]; lia.
  - destruct (Z.land k1 mask =? 0); injection H as <- _ _; reflexivity.
Qed.

(** The insertion loop below a node of depth [bh]: the depth it reports is
    that of the leaf it ends at, and the subtree is afterwards as high as
    before or as that leaf is deep. *)
Lemma insert_iter_height (n : Node) :
  forall (r fuel : nat) (p : Z) (k : ikey_t) (v : ival_t) (nn bh : size_t)
         (n' : Node) (nn' bh' : size_t),
    wf r p n -> is_null n = false -> prefix k r = p -> (r <= fuel)%nat ->
    0 <= bh -> bh + Z.of_nat r < 2 ^ SIZE_BITS ->
    ibt_insert_iter fuel n k (mask_of r) v nn bh = Done (n', nn', bh') ->
    exists d : nat,
      (d <= r)%nat /\ bh' = bh + Z.of_nat d
      /\ tree_height n' = Nat.max (tree_height n) (S d).
Proof.
  induction n as [|e l IHl rt IHrt];
    intros r fuel p k v nn bh n' nn' bh' Hwf Hnn Hk Hf Hbh Hfit Hrun;
    [discriminate|].
  cbn [ibt_insert_iter] in Hrun. rewrite (andb_comm (is_null rt)) in Hrun.
  destruct (is_null l && is_null rt) eqn:E.
  - destruct (wf_leaf_inv _ _ _ _ _ Hwf E) as (-> & -> & x & -> & Hx).
    destruct (Z.eqb_spec k (key x)) as [Heq|Hne]; cbn [negb] in Hrun.
    + injection Hrun as <- _ <-. exists 0%nat. splits; [lia|lia|reflexivity].
    + pose proof (make_branch_chain _ _ _ _ _ _ _ _ _ _ _ Hrun) as Hchain.
      destruct (make_branch_spec r fuel k (key x) v x nn bh p
                  eq_refl Hne Hk Hx Hf)
        as (n0 & d & Hrun0 & _ & _ & _ & Hcnt & Hd).
      rewrite Hrun0 in Hrun. injection Hrun as <- _ <-.
      exists (Z.to_nat (d - 1)). splits.
      * lia.
      * rewrite wrapsz_small by lia. lia.
      * cbn [tree_height Nat.max]. lia.
  - destruct (wf_branch_inv _ _ _ _ _ Hwf E) as (-> & r' & -> & Hl & Hr).
    rewrite land_mask_zero, mask_of_shiftr in Hrun.
    pose proof (prefix_step k r') as Hstep. rewrite Hk in Hstep.
    assert (Hw : wrapsz (bh + 1) = bh + 1) by (apply wrapsz_small; lia).
    rewrite Hw in Hrun.
    destruct (Z.testbit k (Z.of_nat r')) eqn:B; cbn [negb Z.b2z] in *.
    + destruct rt as [|er rl rr].
      * injection Hrun as <- _ <-. exists 1%nat. splits; [lia|lia|].
        destruct l; [discriminate|]. cbn [tree_height ibt_make_leaf]. lia.
      * match type of Hrun with
        | bind ?m _ = _ => destruct m as [[[sub a] b]| |] eqn:Erun;
                             try discriminate
        end.
        cbn [bind] in Hrun. injection Hrun as <- _ <-.
        destruct (IHrt r' fuel (2 * p + 1) k v nn (bh + 1) sub a b Hr
                    eq_refl Hstep ltac:(lia) ltac:(lia) ltac:(lia) Erun)
          as (d & Hd & -> & Hh).
        exists (S d). splits; [lia|lia|].
        cbn [tree_height] in *. lia.
    + destruct l as [|el ll lr].
      * injection Hrun as <- _ <-. exists 1%nat. splits; [lia|lia|].
        destruct rt; [discriminate|]. cbn [tree_height ibt_make_leaf]. lia.
      * match type of Hrun with
        | bind ?m _ = _ => destruct m as [[[sub a] b]| |] eqn:Erun;
                             try discriminate
        end.
        cbn [bind] in Hrun. injection Hrun as <- _ <-.
        destruct (IHl r' fuel (2 * p) k v nn (bh + 1) sub a b Hl
                    eq_refl ltac:(lia) ltac:(lia) ltac:(lia) ltac:(lia) Erun)
          as (d & Hd & -> & Hh).
        exists (S d). splits; [lia|lia|].
        cbn [tree_height] in *. lia.
Qed.

(** The recorded height of a built trie is the height of its tree. *)
Lemma built_height (t : Trie_s) (ks : list ikey_t) :
  built t ks -> height t = Z.of_nat (tree_height (root t)).
Proof.
  induction 1 as [sf df|t t' ks fuel k v Hb IH Hk Hins]; [reflexivity|].
  pose proof (built_inv _ _ Hb) as [Hwf _ _ _ _].
  apply (insert_fuel_mono fuel (Nat.max fuel 32)) in Hins; [|apply Nat.le_max_l].
  unfold ibt_insert in Hins. destruct (is_null (root t)) eqn:En.
  - injection Hins as <-. reflexivity.
  - rewrite top_mask_eq in Hins.
    match type of Hins with
    | bind ?m _ = _ => destruct m as [[[n' a] b]| |] eqn:Erun; try discriminate
    end.
    cbn [bind] in Hins. injection Hins as <-. cbn [height root].
    destruct (insert_iter_height (root t) 32 (Nat.max fuel 32) 0 k v
                (num_nodes t) 1 n' a b Hwf En (proj2 (prefix_ikey k) Hk)
                (Nat.le_max_r _ _) ltac:(lia) ltac:(reflexivity) Erun)
      as (d & Hd & -> & Hh).
    rewrite Hh, IH. destruct (Z.gtb_spec (1 + Z.of_nat d)
                                (Z.of_nat (tree_height (root t)))); lia.
Qed.

(** X1: the height a built trie reports is the number of nodes on the
    longest path from its root to a leaf; it is 0 exactly for the empty
    trie and never more than 33. *)
Theorem height_is_tree_height (t : Trie_s) (ks : list ikey_t) :
  built t ks ->
  ibt_height t = Z.of_nat (tree_height (root t))
  /\ 0 <= ibt_height t <= BITSPERWORD + 1
  /\ (ibt_height t = 0 <-> ks = []).
Proof.
  intros Hb. pose proof (built_height _ _ Hb) as Hh.
  pose proof (built_inv _ _ Hb) as [Hwf _ _ _ Hempty].
  pose proof (wf_height _ _ _ Hwf) as Hle.
  unfold ibt_height, BITSPERWORD. rewrite Hh. splits; try lia. split.
  - intros H0. apply Hempty. destruct (root t); [reflexivity|].
    cbn [tree_height] in H0. lia.
  - intros E. apply Hempty in E. destruct (root t);
      [reflexivity|discriminate].
Qed.

Lemma height_is_tree_height_witness :
  built trie_1_3 [3; 1]
  /\ ibt_height trie_1_3 = Z.of_nat (tree_height (root trie_1_3))
  /\ 0 <= ibt_height trie_1_3 <= BITSPERWORD + 1
  /\ (ibt_height trie_1_3 = 0 <-> [3; 1] = []).
Proof.
  split; [exact built_trie_1_3|].
  apply (height_is_tree_height trie_1_3 [3; 1]). exact built_trie_1_3.
Defined.

(** Whatever fuel an insertion into a built trie was run with, its result is
    the one [insert_spec] describes. *)
Lemma insert_built_spec (t t' : Trie_s) (ks : list ikey_t) (fuel : nat)
    (k : ikey_t) (v : ival_t) :
  built t ks -> is_ikey k -> ibt_insert fuel t k v = Done t' ->
  trie_inv t' (k :: ks)
  /\ ibt_show_value_w t' = ibt_show_value_w t
  /\ ibt_delete_entry t' = ibt_delete_entry t
  /\ leaf_nodes t' = wrapsz (leaf_nodes t + 1)
  /\ ((In k ks /\ root t' = root t /\ num_nodes t' = num_nodes t)
      \/ (~ In k ks
          /\ Permutation (entries (root t')) (mkEntry v k :: entries (root t))
          /\ exists d, 1 <= d <= 33
             /\ num_nodes t' = num_nodes t + d
             /\ Z.of_nat (count_nodes (root t'))
                = Z.of_nat (count_nodes (root t)) + d)).
Proof.
  intros Hb Hk Hins. apply built_inv in Hb.
  destruct (insert_spec t ks (Nat.max fuel 32) k v Hb Hk (Nat.le_max_r _ _))
    as (t'' & Hrun & Hrest).
  apply (insert_fuel_mono fuel (Nat.max fuel 32)) in Hins; [|apply Nat.le_max_l].
  rewrite Hrun in Hins. injection Hins as <-. exact Hrest.
Qed.

(** X2: an insertion never lowers the height of a built trie, and the
    insertion of a key that is already stored leaves it as it is. *)
Theorem insert_height_monotone (t t' : Trie_s) (ks : list ikey_t) (fuel : nat)
    (k : ikey_t) (v : ival_t) :
  built t ks -> is_ikey k -> ibt_insert fuel t k v = Done t' ->
  ibt_height t <= ibt_height t'
  /\ (In k ks -> ibt_height t' = ibt_height t).
Proof.
  intros Hb Hk Hins.
  pose proof (built_height _ _ Hb) as Hh.
  pose proof (built_height _ _ (built_insert t t' ks fuel k v Hb Hk Hins)) as Hh'.
  destruct (insert_built_spec _ _ _ _ _ _ Hb Hk Hins)
    as (_ & _ & _ & _ & Hcase).
  unfold ibt_height. split.
  - unfold ibt_insert in Hins. destruct (is_null (root t)) eqn:En.
    + injection Hins as <-. cbn [height]. rewrite Hh.
      destruct (root t); [cbn; lia|discriminate].
    + match type of Hins with
      | bind ?m _ = _ => destruct m as [[[n' a] b]| |]; try discriminate
      end.
      cbn [bind] in Hins. injection Hins as <-. cbn [height].
      destruct (Z.gtb_spec b (height t)); lia.
  - intros Hin. destruct Hcase as [(_ & Hroot & _)|(Hnin & _)]; [|contradiction].
    rewrite Hh, Hh', Hroot. reflexivity.
Qed.

Lemma insert_height_monotone_witness :
  built trie_1 [1] /\ is_ikey 3
  /\ ibt_insert 32 trie_1 3 300 = Done trie_1_3
  /\ ibt_height trie_1 <= ibt_height trie_1_3
  /\ (In 3 [1] -> ibt_height trie_1_3 = ibt_height trie_1).
Proof.
  split; [exact built_trie_1|]. split; [unfold is_ikey, UINT_BITS; lia|].
  split; [vm_compute; reflexivity|].
  apply (insert_height_monotone trie_1 trie_1_3 [1] 32 3 300).
  - exact built_trie_1.
  - unfold is_ikey, UINT_BITS. lia.
  - vm_compute. reflexivity.
Defined.

(** X3: an insertion into a built trie removes and alters no stored Entry:
    every Entry stored before is stored after, and the only Entry that can
    be new is the pair inserted; when the key was already stored nothing
    is new, so the value given with it is not taken over. *)
Theorem insert_keeps_entries (t t' : Trie_s) (ks : list ikey_t) (fuel : nat)
    (k : ikey_t) (v : ival_t) :
  built t ks -> is_ikey k -> ibt_insert fuel t k v = Done t' ->
  (forall x, In x (entries (root t)) -> In x (entries (root t')))
  /\ (forall x, In x (entries (root t')) ->
        In x (entries (root t)) \/ (x = mkEntry v k /\ ~ In k ks))
  /\ (In k ks -> entries (root t') = entries (root t))
  /\ (~ In k ks -> In (mkEntry v k) (entries (root t'))).
Proof.
  intros Hb Hk Hins.
  destruct (insert_built_spec _ _ _ _ _ _ Hb Hk Hins)
    as (_ & _ & _ & _ & Hcase).
  destruct Hcase as [(Hin & Hroot & _)|(Hnin & Hperm & _)].
  - rewrite Hroot. splits; auto. intros H. contradiction.
  - splits.
    + intros x Hx. apply (Permutation_in _ (Permutation_sym Hperm)).
      right. exact Hx.
    + intros x Hx. apply (Permutation_in _ Hperm) in Hx.
      destruct Hx as [<-|Hx]; auto.
    + intros H. contradiction.
    + intros _. apply (Permutation_in _ (Permutation_sym Hperm)).
      left. reflexivity.
Qed.

Lemma insert_keeps_entries_witness :
  built trie_1 [1] /\ is_ikey 3
  /\ ibt_insert 32 trie_1 3 300 = Done trie_1_3
  /\ (forall x, In x (entries (root trie_1)) -> In x (entries (root trie_1_3)))
  /\ (forall x, In x (entries (root trie_1_3)) ->
        In x (entries (root trie_1)) \/ (x = mkEntry 300 3 /\ ~ In 3 [1]))
  /\ (In 3 [1] -> entries (root trie_1_3) = entries (root trie_1))
  /\ (~ In 3 [1] -> In (mkEntry 300 3) (entries (root trie_1_3))).
Proof.
  split; [exact built_trie_1|]. split; [unfold is_ikey, UINT_BITS; lia|].
  split; [vm_compute; reflexivity|].
  apply (insert_keeps_entries trie_1 trie_1_3 [1] 32 3 300).
  - exact built_trie_1.
  - unfold is_ikey, UINT_BITS. lia.
  - vm_compute. reflexivity.
Defined.

(** ** Counters when no key is repeated *)

Lemma shape_count (n : Node) :
  shape_ok n ->
  count_nodes n = (count_internal n + List.length (entries n))%nat.
Proof.
  induction n as [|e l IHl r IHr]; intros Hok; [reflexivity|].
  cbn [shape_ok] in Hok. destruct Hok as (He & Hl & Hr).
  cbn [count_nodes count_internal entries].
  rewrite !length_app, (IHl Hl), (IHr Hr).
  destruct (is_null l && is_null r).
  - destruct e; [cbn; lia|congruence].
  - subst e. cbn. lia.
Qed.

Lemma sorted_NoDup (l : list Z) : StronglySorted Z.lt l -> NoDup l.
Proof.
  induction 1 as [|a l Hs IH Hf]; constructor; auto.
  intros Hin. rewrite Forall_forall in Hf. specialize (Hf a Hin). lia.
Qed.

Lemma built_keys_length (t : Trie_s) (ks : list ikey_t) :
  built t ks -> NoDup ks ->
  List.length (entries (root t)) = List.length ks.
Proof.
  intros Hb Hnd. apply built_inv in Hb. destruct Hb as [Hwf _ Hkeys _ _].
  rewrite <- (length_map key). fold (keys (root t)).
  apply Permutation_length. apply NoDup_Permutation; auto.
  apply sorted_NoDup. exact (wf_sorted _ _ _ Hwf).
Qed.

(** X4: as long as no key has been inserted twice, the counters of a built
    trie mean what [trie.h] says: [ibt_size] is the number of stored
    Entries (the number of insertions) and [ibt_node_count] is the number
    of internal nodes. *)
Theorem counters_without_duplicates (t : Trie_s) (ks : list ikey_t) :
  built t ks -> NoDup ks ->
  ibt_size t = Z.of_nat (List.length (entries (root t)))
  /\ ibt_size t = Z.of_nat (List.length ks)
  /\ ibt_node_count t = Z.of_nat (count_internal (root t)).
Proof.
  intros Hb Hnd. pose proof (built_keys_length _ _ Hb Hnd) as Hlen.
  apply built_inv in Hb. destruct Hb as [Hwf Hnum _ Hleaf _].
  pose proof (count_nodes_fits _ Hwf) as Hfit.
  pose proof (shape_count _ (wf_shape_ok _ _ _ Hwf)) as Hcnt.
  assert (H64 : 2 ^ 33 < 2 ^ SIZE_BITS) by reflexivity.
  assert (Hsize : leaf_nodes t = Z.of_nat (List.length ks)).
  { rewrite Hleaf. apply wrapsz_small. lia. }
  unfold ibt_size, ibt_node_count. rewrite Hsize, Hnum, Hlen. splits; auto.
  rewrite wrapsz_small; lia.
Qed.

Lemma counters_without_duplicates_witness :
  built trie_1_3 [3; 1] /\ NoDup [3; 1]
  /\ ibt_size trie_1_3 = Z.of_nat (List.length (entries (root trie_1_3)))
  /\ ibt_size trie_1_3 = Z.of_nat (List.length [3; 1])
  /\ ibt_node_count trie_1_3 = Z.of_nat (count_internal (root trie_1_3)).
Proof.
  assert (Hnd : NoDup [3; 1]).
  { repeat constructor; cbn; intros H; repeat destruct H as [H|H];
      try discriminate H; exact H. }
  split; [exact built_trie_1_3|]. split; [exact Hnd|].
  apply (counters_without_duplicates trie_1_3 [3; 1]).
  - exact built_trie_1_3.
  - exact Hnd.
Defined.

(** ** The value a key keeps *)

Lemma descent_entries (k : ikey_t) (n : Node) (m : ikey_t) (b : Node) (m' : ikey_t) :
  exact_descent k n m b m' ->
  forall x, In x (entries b) -> In x (entries n).
Proof.
  induction 1 as [|n m b m' Hc Hreq Hd IH]; [auto|].
  intros x Hx. apply IH in Hx. destruct n as [|e l r]; [destruct Hx|].
  cbn [entries]. destruct (required k m); cbn [child] in Hx.
  - apply in_or_app. left. exact Hx.
  - apply in_or_app. right. apply in_or_app. right. exact Hx.
Qed.

(** Searching a well-formed subtree for one of its keys returns the Entry
    stored with it. *)
Lemma present_search (n : Node) (r : nat) (p : Z) (k : ikey_t) :
  wf r p n -> In k (keys n) ->
  exists x, ibt_search_rec n k (mask_of r) = Done (Some x)
            /\ key x = k /\ In x (entries n).
Proof.
  intros Hwf Hin.
  destruct (present_descent _ _ _ _ Hwf Hin) as (x & m' & Hd & Hkx).
  exists x. splits; auto.
  - rewrite (descent_search _ _ _ _ _ Hd). reflexivity.
  - apply (descent_entries _ _ _ _ _ Hd). cbn. auto.
Qed.

Lemma first_value_app (k : ikey_t) (l1 l2 : list (ikey_t * ival_t)) :
  first_value k (l1 ++ l2)
  = match first_value k l1 with
    | Some v => Some v
    | None => first_value k l2
    end.
Proof.
  induction l1 as [|[k' v] l1 IH]; [reflexivity|].
  cbn [app first_value]. destruct (k' =? k); auto.
Qed.

Lemma first_value_none (k : ikey_t) (l : list (ikey_t * ival_t)) :
  first_value k l = None <-> ~ In k (map fst l).
Proof.
  induction l as [|[k' v] l IH]; cbn [first_value map fst In]; [tauto|].
  destruct (Z.eqb_spec k' k) as [->|Hne].
  - split; [discriminate|]. intros H. exfalso. apply H. left. reflexivity.
  - rewrite IH. tauto.
Qed.

Lemma insert_all_first_value (kvs : list (ikey_t * ival_t)) :
  forall (t : Trie_s) (done : list (ikey_t * ival_t)),
    built t (rev (map fst done)) ->
    (forall x, In x (entries (root t))
               <-> first_value (key x) done = Some (value x)) ->
    Forall is_ikey (map fst kvs) ->
    exists t',
      insert_all 32 t kvs = Done t'
      /\ built t' (rev (map fst (done ++ kvs)))
      /\ (forall x, In x (entries (root t'))
                    <-> first_value (key x) (done ++ kvs) = Some (value x)).
Proof.
  induction kvs as [|[k v] kvs IH]; intros t done Hb Hinv Hk.
  - exists t. rewrite app_nil_r. auto.
  - cbn [map fst] in Hk. inversion Hk as [|? ? Hk1 Hk2]; subst.
    destruct (insert_spec t _ 32 k v (built_inv _ _ Hb) Hk1 (Nat.le_refl _))
      as (t1 & Hrun & _ & _ & _ & _ & Hcase).
    assert (Hb1 : built t1 (rev (map fst (done ++ [(k, v)])))).
    { rewrite map_app, rev_app_distr. cbn [map fst rev app].
      exact (built_insert t t1 _ 32 k v Hb Hk1 Hrun). }
    assert (Hinv1 : forall x, In x (entries (root t1))
              <-> first_value (key x) (done ++ [(k, v)]) = Some (value x)).
    { intros x. rewrite first_value_app. cbn [first_value].
      destruct Hcase as [(Hin & Hroot & _)|(Hnin & Hperm & _)].
      - rewrite Hroot, Hinv.
        destruct (first_value (key x) done) as [w|] eqn:Ef; [tauto|].
        apply first_value_none in Ef. destruct (Z.eqb_spec k (key x)) as [->|Hne].
        + exfalso. apply Ef. apply in_rev. exact Hin.
        + split; discriminate.
      - assert (Hnone : first_value k done = None).
        { apply first_value_none. intros H. apply Hnin. apply in_rev in H.
          exact H. }
        split.
        + intros Hx. apply (Permutation_in _ Hperm) in Hx.
          destruct Hx as [<-|Hx].
          * cbn [key value]. rewrite Hnone, Z.eqb_refl. reflexivity.
          * apply Hinv in Hx. rewrite Hx. reflexivity.
        + intros Hf. apply (Permutation_in _ (Permutation_sym Hperm)).
          destruct (first_value (key x) done) as [w|] eqn:Ef.
          * right. apply Hinv. congruence.
          * left. destruct (Z.eqb_spec k (key x)) as [Heq|Hne];
              [|discriminate]. destruct x as [xv xk]. cbn [key value] in *.
            congruence. }
    destruct (IH t1 (done ++ [(k, v)]) Hb1 Hinv1 Hk2) as (t' & Hrun' & Hb' & Hinv').
    exists t'. rewrite <- app_assoc in Hb', Hinv'. cbn [app] in Hb', Hinv'.
    splits; auto. cbn [insert_all]. rewrite Hrun. exact Hrun'.
Qed.

(** X5: a sequence of insertions of 32-bit keys into a fresh trie always
    returns; the trie then stores, for every key of the sequence, exactly
    one Entry, with the value of the first insertion of that key, and a
    search for the key returns that Entry: values given with later
    insertions of the same key are not stored. *)
Theorem first_insertion_wins (sf df : option fnptr) (kvs : list (ikey_t * ival_t)) :
  Forall is_ikey (map fst kvs) ->
  exists t,
    insert_all 32 (ibt_create sf df) kvs = Done t
    /\ (forall x, In x (entries (root t))
                  <-> first_value (key x) kvs = Some (value x))
    /\ (forall k v, first_value k kvs = Some v ->
          ibt_search t k = Returned (Some {| value := v; key := k |}) t).
Proof.
  intros Hk.
  destruct (insert_all_first_value kvs (ibt_create sf df) []
              (built_create sf df)) as (t & Hrun & Hb & Hinv); auto.
  { intros x. cbn. split; [intros []|discriminate]. }
  cbn [app] in Hb, Hinv. exists t. splits; auto.
  intros k v Hf.
  assert (Hin : In {| value := v; key := k |} (entries (root t)))
    by (apply Hinv; exact Hf).
  pose proof (built_inv _ _ Hb) as [Hwf _ _ _ _].
  assert (Hkin : In k (keys (root t))).
  { unfold keys. change k with (key {| value := v; key := k |}).
    apply in_map. exact Hin. }
  destruct (present_search _ _ _ _ Hwf Hkin) as (x & Hx & Hkx & Hinx).
  unfold ibt_search. rewrite (keys_nonnull _ _ Hkin), top_mask_eq, Hx.
  apply Hinv in Hinx. rewrite Hkx, Hf in Hinx.
  destruct x as [xv xk]. cbn [key value] in *. congruence.
Qed.

Lemma first_insertion_wins_witness :
  Forall is_ikey (map fst [(5, 50); (9, 90); (5, 51)])
  /\ exists t,
       insert_all 32 (ibt_create None None) [(5, 50); (9, 90); (5, 51)] = Done t
       /\ (forall x, In x (entries (root t))
            <-> first_value (key x) [(5, 50); (9, 90); (5, 51)] = Some (value x))
       /\ (forall k v, first_value k [(5, 50); (9, 90); (5, 51)] = Some v ->
             ibt_search t k = Returned (Some {| value := v; key := k |}) t).
Proof.
  assert (H : Forall is_ikey (map fst [(5, 50); (9, 90); (5, 51)])).
  { repeat constructor; unfold is_ikey, UINT_BITS; cbn; lia. }
  split; [exact H|].
  apply (first_insertion_wins None None [(5, 50); (9, 90); (5, 51)]).
  exact H.
Defined.

(** ** What a search returns for a key that is not stored *)

Lemma prefix_mono (a b : Z) (j j' : nat) :
  prefix a j = prefix b j -> (j <= j')%nat -> prefix a j' = prefix b j'.
Proof.
  unfold prefix. intros H Hle.
  replace (Z.of_nat j') with (Z.of_nat j + Z.of_nat (j' - j)) by lia.
  rewrite <- !Z.shiftr_shiftr by lia. rewrite H. reflexivity.
Qed.

Lemma prefix_le (a b : Z) (j : nat) : a <= b -> prefix a j <= prefix b j.
Proof.
  unfold prefix. rewrite !Z.shiftr_div_pow2 by lia. intros H.
  apply Z.div_le_mono; [|exact H]. apply Z.pow_pos_nonneg; lia.
Qed.

Lemma prefix_lt (a b : Z) (j : nat) : prefix a j < prefix b j -> a < b.
Proof.
  intros H. destruct (Z.lt_ge_cases a b) as [Hlt|Hge]; [exact Hlt|].
  apply (prefix_le _ _ j) in Hge. lia.
Qed.

(** A key on the other side of a branch agrees with [k] on fewer bits than
    the branch has read. *)
Lemma other_side_diverges (n : Node) (r : nat) (p : Z) (k y : ikey_t)
    (b b' : bool) (j : nat) :
  wf r (2 * p + Z.b2z b) n -> In y (keys n) ->
  prefix k r = 2 * p + Z.b2z b' -> b <> b' ->
  prefix y j = prefix k j -> (S r <= j)%nat.
Proof.
  intros Hwf Hin Hk Hb Hj.
  destruct (Nat.le_gt_cases j r) as [Hle|Hgt]; [|lia].
  exfalso.
  pose proof (prefix_mono _ _ _ _ Hj Hle) as Hr.
  pose proof (wf_prefix _ _ _ _ Hwf Hin) as Hy.
  destruct b, b'; cbn [Z.b2z] in *; try congruence; lia.
Qed.

(** In closest-match mode the whole subtree agrees with [k] on no more bits
    than its root has read, so any of its leaves will do. *)
Lemma search_rec_prefix (n : Node) :
  forall (r : nat) (p : Z) (k : ikey_t),
    wf r p n -> is_null n = false -> prefix k r = p ->
    exists x,
      ibt_search_rec n k (mask_of r) = Done (Some x)
      /\ In x (entries n)
      /\ forall y j, In y (keys n) -> prefix y j = prefix k j ->
                     prefix (key x) j = prefix k j.
Proof.
  induction n as [|e l IHl rt IHrt]; intros r p k Hwf Hnn Hk; [discriminate|].
  cbn [ibt_search_rec].
  destruct (is_null l && is_null rt) eqn:E.
  - destruct (wf_leaf_inv _ _ _ _ _ Hwf E) as (-> & -> & x & -> & Hx).
    exists x. splits; [reflexivity|cbn; auto|].
    intros y j Hy Hj. rewrite keys_node in Hy. cbn in Hy.
    destruct Hy as [<-|[]]. exact Hj.
  - destruct (wf_branch_inv _ _ _ _ _ Hwf E) as (-> & r' & -> & Hl & Hr).
    pose proof (wf_shape_ok _ _ _ Hl) as Hsl.
    pose proof (wf_shape_ok _ _ _ Hr) as Hsr.
    rewrite land_mask_zero, mask_of_shiftr.
    pose proof (prefix_step k r') as Hstep. rewrite Hk in Hstep.
    apply andb_false_iff in E.
    assert (Hin_node : forall x j, In x (entries (Node_s None l rt)) ->
               (S r' <= j)%nat -> prefix (key x) j = prefix k j).
    { intros x j Hx Hj. apply (prefix_mono _ _ (S r')); [|exact Hj].
      rewrite Hk. apply (wf_prefix _ _ _ _ Hwf).
      unfold keys. apply in_map. exact Hx. }
    destruct (Z.testbit k (Z.of_nat r')) eqn:B; cbn [negb Z.b2z] in *.
    + (* bit 1 *)
      destruct (is_null rt) eqn:Er.
      * destruct E as [E|E]; [|discriminate].
        destruct (closest_match_leaf l "r"%char Hsl E) as (x & Hx & Hin).
        assert (Hinx : In x (entries (Node_s None l rt)))
          by (cbn [entries]; apply in_or_app; left; exact Hin).
        exists x. splits; auto. intros y j Hy Hj.
        apply Hin_node; auto. rewrite keys_node in Hy. cbn [app] in Hy.
        apply in_app_or in Hy. destruct Hy as [Hy|Hy].
        -- apply (other_side_diverges l r' p k y false true j); auto;
             try discriminate.
           replace (2 * p + Z.b2z false) with (2 * p) by (cbn; lia). exact Hl.
        -- destruct rt; [destruct Hy|discriminate].
      * destruct (IHrt r' (2 * p + 1) k Hr eq_refl Hstep) as (x & Hx & Hin & Hbest).
        assert (Hinx : In x (entries (Node_s None l rt))).
        { cbn [entries]. apply in_or_app. right. exact Hin. }
        exists x. splits; auto. intros y j Hy Hj.
        rewrite keys_node in Hy. cbn [app] in Hy.
        apply in_app_or in Hy. destruct Hy as [Hy|Hy].
        -- apply Hin_node; auto.
           apply (other_side_diverges l r' p k y false true j); auto;
             try discriminate.
           replace (2 * p + Z.b2z false) with (2 * p) by (cbn; lia). exact Hl.
        -- apply (Hbest y j); auto.
    + (* bit 0 *)
      destruct (is_null l) eqn:El.
      * destruct E as [E|E]; [discriminate|].
        destruct (closest_match_leaf rt "l"%char Hsr E) as (x & Hx & Hin).
        assert (Hinx : In x (entries (Node_s None l rt))).
        { cbn [entries]. apply in_or_app. right. exact Hin. }
        exists x. splits; auto. intros y j Hy Hj.
        apply Hin_node; auto. rewrite keys_node in Hy. cbn [app] in Hy.
        apply in_app_or in Hy. destruct Hy as [Hy|Hy].
        -- destruct l; [destruct Hy|discriminate].
        -- apply (other_side_diverges rt r' p k y true false j); auto;
             try discriminate; cbn [Z.b2z]; lia.
      * destruct (IHl r' (2 * p) k Hl eq_refl ltac:(lia)) as (x & Hx & Hin & Hbest).
        assert (Hinx : In x (entries (Node_s None l rt))).
        { cbn [entries]. apply in_or_app. left. exact Hin. }
        exists x. splits; auto. intros y j Hy Hj.
        rewrite keys_node in Hy. cbn [app] in Hy.
        apply in_app_or in Hy. destruct Hy as [Hy|Hy].
        -- apply (Hbest y j); auto.
        -- apply Hin_node; auto.
           apply (other_side_diverges rt r' p k y true false j); auto;
             try discriminate; cbn [Z.b2z]; lia.
Qed.

(** X6: on a non-empty built trie the key of the Entry a search returns is
    a stored key that agrees with the key searched for on at least as many
    leading bits as any stored key does. *)
Theorem search_returns_longest_common_prefix (t : Trie_s) (ks : list ikey_t)
    (k : ikey_t) :
  built t ks -> is_null (root t) = false -> is_ikey k ->
  exists x,
    ibt_search t k = Returned (Some x) t
    /\ In (key x) ks
    /\ forall y j, In y ks -> prefix y j = prefix k j ->
                   prefix (key x) j = prefix k j.
Proof.
  intros Hb Hn Hk. apply built_inv in Hb. destruct Hb as [Hwf _ Hkeys _ _].
  destruct (search_rec_prefix (root t) 32 0 k Hwf Hn (proj2 (prefix_ikey k) Hk))
    as (x & Hx & Hin & Hbest).
  exists x. unfold ibt_search. rewrite Hn, top_mask_eq, Hx. splits; auto.
  - apply Hkeys. unfold keys. apply in_map. exact Hin.
  - intros y j Hy. apply (Hbest y j). apply Hkeys. exact Hy.
Qed.

Lemma search_returns_longest_common_prefix_witness :
  built trie_1_3 [3; 1] /\ is_null (root trie_1_3) = false /\ is_ikey 2
  /\ exists x,
       ibt_search trie_1_3 2 = Returned (Some x) trie_1_3
       /\ In (key x) [3; 1]
       /\ forall y j, In y [3; 1] -> prefix y j = prefix 2 j ->
                      prefix (key x) j = prefix 2 j.
Proof.
  split; [exact built_trie_1_3|]. split; [reflexivity|].
  split; [unfold is_ikey, UINT_BITS; lia|].
  apply (search_returns_longest_common_prefix trie_1_3 [3; 1] 2).
  - exact built_trie_1_3.
  - reflexivity.
  - unfold is_ikey, UINT_BITS. lia.
Defined.

(** Mode ['l'] ends at the smallest key of a subtree, mode ['r'] at the
    largest. *)
Lemma closest_left_min (n : Node) :
  forall r p, wf r p n -> is_null n = false ->
    exists x, ibt_closest_match_rec n "l" = Done (Some x)
              /\ In x (entries n)
              /\ forall y, In y (keys n) -> key x <= y.
Proof.
  induction n as [|e l IHl rt IHrt]; intros r p Hwf Hnn; [discriminate|].
  cbn [ibt_closest_match_rec Ascii.eqb Bool.eqb].
  destruct (is_null l && is_null rt) eqn:E.
  - destruct (wf_leaf_inv _ _ _ _ _ Hwf E) as (-> & -> & x & -> & Hx).
    exists x. splits; [reflexivity|cbn; auto|].
    intros y Hy. rewrite keys_node in Hy. cbn in Hy. destruct Hy as [<-|[]]. lia.
  - destruct (wf_branch_inv _ _ _ _ _ Hwf E) as (-> & r' & -> & Hl & Hr).
    apply andb_false_iff in E. rewrite keys_node. cbn [entries app].
    destruct (is_null l) eqn:El; cbn [negb].
    + destruct E as [E|E]; [discriminate|].
      destruct (IHrt _ _ Hr E) as (x & Hx & Hin & Hmin).
      exists x. splits; auto.
      * apply in_or_app. right. exact Hin.
      * intros y Hy. apply in_app_or in Hy. destruct Hy as [Hy|Hy]; auto.
        destruct l; [destruct Hy|discriminate].
    + destruct (IHl _ _ Hl eq_refl) as (x & Hx & Hin & Hmin).
      exists x. splits; auto.
      * apply in_or_app. left. exact Hin.
      * intros y Hy. apply in_app_or in Hy. destruct Hy as [Hy|Hy]; auto.
        assert (key x < y); [|lia].
        apply (sides_ordered r' p).
        -- apply (wf_prefix _ _ _ _ Hl). unfold keys. apply in_map. exact Hin.
        -- apply (wf_prefix _ _ _ _ Hr Hy).
Qed.

Lemma closest_right_max (n : Node) :
  forall r p, wf r p n -> is_null n = false ->
    exists x, ibt_closest_match_rec n "r" = Done (Some x)
              /\ In x (entries n)
              /\ forall y, In y (keys n) -> y <= key x.
Proof.
  induction n as [|e l IHl rt IHrt]; intros r p Hwf Hnn; [discriminate|].
  cbn [ibt_closest_match_rec Ascii.eqb Bool.eqb].
  destruct (is_null l && is_null rt) eqn:E.
  - destruct (wf_leaf_inv _ _ _ _ _ Hwf E) as (-> & -> & x & -> & Hx).
    exists x. splits; [reflexivity|cbn; auto|].
    intros y Hy. rewrite keys_node in Hy. cbn in Hy. destruct Hy as [<-|[]]. lia.
  - destruct (wf_branch_inv _ _ _ _ _ Hwf E) as (-> & r' & -> & Hl & Hr).
    apply andb_false_iff in E. rewrite keys_node. cbn [entries app].
    destruct (is_null rt) eqn:Er; cbn [negb].
    + destruct E as [E|E]; [|discriminate].
      destruct (IHl _ _ Hl E) as (x & Hx & Hin & Hmax).
      exists x. splits; auto.
      * apply in_or_app. left. exact Hin.
      * intros y Hy. apply in_app_or in Hy. destruct Hy as [Hy|Hy]; auto.
        destruct rt; [destruct Hy|discriminate].
    + destruct (IHrt _ _ Hr eq_refl) as (x & Hx & Hin & Hmax).
      exists x. splits; auto.
      * apply in_or_app. right. exact Hin.
      * intros y Hy. apply in_app_or in Hy. destruct Hy as [Hy|Hy]; auto.
        assert (y < key x); [|lia].
        apply (sides_ordered r' p).
        -- apply (wf_prefix _ _ _ _ Hl Hy).
        -- apply (wf_prefix _ _ _ _ Hr). unfold keys. apply in_map. exact Hin.
Qed.

(** Where an exact descent through a well-formed subtree has arrived: at a
    well-formed subtree whose prefix is that of the key and which holds
    every key of the starting subtree with that prefix. *)
Lemma descent_wf (k : ikey_t) (n : Node) (m : ikey_t) (b : Node) (m' : ikey_t) :
  exact_descent k n m b m' ->
  forall r p, m = mask_of r -> wf r p n -> prefix k r = p ->
    exists r' p',
      (r' <= r)%nat /\ m' = mask_of r' /\ wf r' p' b /\ prefix k r' = p'
      /\ (forall y, In y (keys n) -> prefix y r' = p' -> In y (keys b))
      /\ (forall y, In y (keys b) -> In y (keys n)).
Proof.
  induction 1 as [n m|n m b m' Hc Hreq Hd IH]; intros r p Hm Hwf Hk.
  - exists r, p. splits; auto.
  - subst m. destruct n as [|e l rt]; [discriminate|].
    cbn [has_children] in Hc. apply negb_true_iff in Hc.
    destruct (wf_branch_inv _ _ _ _ _ Hwf Hc) as (-> & r1 & -> & Hl & Hr).
    pose proof (prefix_step k r1) as Hstep. rewrite Hk in Hstep.
    unfold required in *. rewrite land_mask_zero in *.
    rewrite mask_of_shiftr in *.
    destruct (Z.testbit k (Z.of_nat r1)) eqn:B; cbn [negb child Z.b2z] in *.
    + destruct (IH r1 (2 * p + 1) eq_refl Hr Hstep)
        as (r' & p' & Hle & Hm' & Hwf' & Hk' & Hall & Hsub).
      exists r', p'. splits; auto.
      * intros y Hy Hp. apply Hall; auto.
        rewrite keys_node in Hy. cbn [app] in Hy. apply in_app_or in Hy.
        destruct Hy as [Hy|Hy]; [|exact Hy]. exfalso.
        assert (Hyk : prefix y r' = prefix k r') by congruence.
        pose proof (prefix_mono _ _ _ _ Hyk Hle) as Hr1.
        pose proof (wf_prefix _ _ _ _ Hl Hy). lia.
      * intros y Hy. rewrite keys_node. cbn [app]. apply in_or_app. right. auto.
    + destruct (IH r1 (2 * p) eq_refl Hl ltac:(lia))
        as (r' & p' & Hle & Hm' & Hwf' & Hk' & Hall & Hsub).
      exists r', p'. splits; auto.
      * intros y Hy Hp. apply Hall; auto.
        rewrite keys_node in Hy. cbn [app] in Hy. apply in_app_or in Hy.
        destruct Hy as [Hy|Hy]; [exact Hy|]. exfalso.
        assert (Hyk : prefix y r' = prefix k r') by congruence.
        pose proof (prefix_mono _ _ _ _ Hyk Hle) as Hr1.
        pose proof (wf_prefix _ _ _ _ Hr Hy). lia.
      * intros y Hy. rewrite keys_node. cbn [app]. apply in_or_app. left. auto.
Qed.

Lemma descent_nonnull (k : ikey_t) (n : Node) (m : ikey_t) (b : Node) (m' : ikey_t) :
  exact_descent k n m b m' -> has_children b = true -> is_null n = false.
Proof.
  intros Hd Hc. destruct Hd as [n m|n m b m' Hc' _ _];
    destruct n; try discriminate; reflexivity.
Qed.

Lemma built_trie_hi : built trie_hi [2147483651; 2147483649].
Proof.
  apply (insert_all_built 32 [(2147483649, 100); (2147483651, 300)]
           (ibt_create (Some 1) (Some 2)) trie_hi []).
  - constructor.
  - repeat constructor; unfold is_ikey, UINT_BITS; cbn; lia.
  - vm_compute. reflexivity.
Qed.

(** X7: when the exact descent for a key stops at a branch because the left
    child it needs is missing, the search returns the Entry with the
    smallest stored key greater than the key searched for. *)
Theorem search_left_missing_returns_successor (t : Trie_s) (ks : list ikey_t)
    (k : ikey_t) (b : Node) (mask : ikey_t) :
  built t ks -> is_ikey k ->
  exact_descent k (root t) top_mask b mask ->
  has_children b = true ->
  required k mask = SideLeft ->
  is_null (child SideLeft b) = true ->
  exists x,
    ibt_search t k = Returned (Some x) t
    /\ In (key x) ks
    /\ k < key x
    /\ forall y, In y ks -> k < y -> key x <= y.
Proof.
  intros Hb Hk Hd Hc Hreq Hmiss.
  pose proof (descent_nonnull _ _ _ _ _ Hd Hc) as Hroot.
  apply built_inv in Hb. destruct Hb as [Hwf _ Hkeys _ _].
  destruct (descent_wf _ _ _ _ _ Hd 32 0 top_mask_eq Hwf
              (proj2 (prefix_ikey k) Hk))
    as (r' & p' & Hle & -> & Hwfb & Hkb & Hall & Hsub).
  destruct b as [|e l rt]; [discriminate|].
  cbn [has_children] in Hc. apply negb_true_iff in Hc.
  destruct (wf_branch_inv _ _ _ _ _ Hwfb Hc) as (-> & r1 & -> & Hl & Hr).
  unfold required in Hreq. rewrite land_mask_zero in Hreq.
  destruct (Z.testbit k (Z.of_nat r1)) eqn:B; [discriminate|].
  cbn [child] in Hmiss. rewrite Hmiss in Hc. cbn [andb] in Hc.
  destruct (closest_left_min rt _ _ Hr Hc) as (x & Hx & Hin & Hmin).
  assert (Hkx : In (key x) (keys rt)) by (unfold keys; apply in_map; exact Hin).
  pose proof (prefix_step k r1) as Hstep. rewrite Hkb, B in Hstep.
  cbn [Z.b2z] in Hstep.
  exists x. splits.
  - unfold ibt_search. rewrite Hroot, (descent_search _ _ _ _ _ Hd).
    cbn [ibt_search_rec]. rewrite Hmiss, Hc, land_mask_zero, B. cbn [andb negb].
    rewrite Hx. reflexivity.
  - apply Hkeys. apply Hsub. rewrite keys_node. cbn [app].
    apply in_or_app. right. exact Hkx.
  - apply (sides_ordered r1 p'); [lia|]. exact (wf_prefix _ _ _ _ Hr Hkx).
  - intros y Hy Hlt. apply Hkeys in Hy.
    assert (Hkxb : In (key x) (keys (Node_s None l rt)))
      by (rewrite keys_node; cbn [app]; apply in_or_app; right; exact Hkx).
    pose proof (wf_prefix _ _ _ _ Hwfb Hkxb) as Hpx.
    destruct (Z.eq_dec (prefix y (S r1)) p') as [Heq|Hne].
    + apply Hall in Heq; [|exact Hy]. rewrite keys_node in Heq.
      cbn [app] in Heq. apply in_app_or in Heq. destruct Heq as [Hyl|Hyr].
      * destruct l; [destruct Hyl|discriminate].
      * apply Hmin. exact Hyr.
    + assert (prefix k (S r1) <= prefix y (S r1)) by (apply prefix_le; lia).
      assert (key x < y); [|lia].
      apply (prefix_lt _ _ (S r1)). lia.
Qed.

Lemma search_left_missing_returns_successor_witness :
  built trie_hi [2147483651; 2147483649] /\ is_ikey 5
  /\ exact_descent 5 (root trie_hi) top_mask (root trie_hi) top_mask
  /\ has_children (root trie_hi) = true
  /\ required 5 top_mask = SideLeft
  /\ is_null (child SideLeft (root trie_hi)) = true
  /\ exists x,
       ibt_search trie_hi 5 = Returned (Some x) trie_hi
       /\ In (key x) [2147483651; 2147483649]
       /\ 5 < key x
       /\ forall y, In y [2147483651; 2147483649] -> 5 < y -> key x <= y.
Proof.
  split; [exact built_trie_hi|]. split; [unfold is_ikey, UINT_BITS; lia|].
  split; [constructor|]. split; [reflexivity|]. split; [reflexivity|].
  split; [reflexivity|].
  apply (search_left_missing_returns_successor trie_hi
           [2147483651; 2147483649] 5 (root trie_hi) top_mask).
  - exact built_trie_hi.
  - unfold is_ikey, UINT_BITS. lia.
  - constructor.
  - reflexivity.
  - reflexivity.
  - reflexivity.
Defined.

(** X8: when the exact descent for a key stops at a branch because the
    right child it needs is missing, the search returns the Entry with the
    largest stored key smaller than the key searched for. *)
Theorem search_right_missing_returns_predecessor (t : Trie_s) (ks : list ikey_t)
    (k : ikey_t) (b : Node) (mask : ikey_t) :
  built t ks -> is_ikey k ->
  exact_descent k (root t) top_mask b mask ->
  has_children b = true ->
  required k mask = SideRight ->
  is_null (child SideRight b) = true ->
  exists x,
    ibt_search t k = Returned (Some x) t
    /\ In (key x) ks
    /\ key x < k
    /\ forall y, In y ks -> y < k -> y <= key x.
Proof.
  intros Hb Hk Hd Hc Hreq Hmiss.
  pose proof (descent_nonnull _ _ _ _ _ Hd Hc) as Hroot.
  apply built_inv in Hb. destruct Hb as [Hwf _ Hkeys _ _].
  destruct (descent_wf _ _ _ _ _ Hd 32 0 top_mask_eq Hwf
              (proj2 (prefix_ikey k) Hk))
    as (r' & p' & Hle & -> & Hwfb & Hkb & Hall & Hsub).
  destruct b as [|e l rt]; [discriminate|].
  cbn [has_children] in Hc. apply negb_true_iff in Hc.
  destruct (wf_branch_inv _ _ _ _ _ Hwfb Hc) as (-> & r1 & -> & Hl & Hr).
  unfold required in Hreq. rewrite land_mask_zero in Hreq.
  destruct (Z.testbit k (Z.of_nat r1)) eqn:B; [|discriminate].
  cbn [child] in Hmiss. rewrite Hmiss, andb_true_r in Hc.
  destruct (closest_right_max l _ _ Hl Hc) as (x & Hx & Hin & Hmax).
  assert (Hkx : In (key x) (keys l)) by (unfold keys; apply in_map; exact Hin).
  pose proof (prefix_step k r1) as Hstep. rewrite Hkb, B in Hstep.
  cbn [Z.b2z] in Hstep.
  exists x. splits.
  - unfold ibt_search. rewrite Hroot, (descent_search _ _ _ _ _ Hd).
    cbn [ibt_search_rec]. rewrite Hmiss, Hc, land_mask_zero, B. cbn [andb negb].
    rewrite Hx. reflexivity.
  - apply Hkeys. apply Hsub. rewrite keys_node. cbn [app].
    apply in_or_app. left. exact Hkx.
  - apply (sides_ordered r1 p'); [|lia]. exact (wf_prefix _ _ _ _ Hl Hkx).
  - intros y Hy Hlt. apply Hkeys in Hy.
    assert (Hkxb : In (key x) (keys (Node_s None l rt)))
      by (rewrite keys_node; cbn [app]; apply in_or_app; left; exact Hkx).
    pose proof (wf_prefix _ _ _ _ Hwfb Hkxb) as Hpx.
    destruct (Z.eq_dec (prefix y (S r1)) p') as [Heq|Hne].
    + apply Hall in Heq; [|exact Hy]. rewrite keys_node in Heq.
      cbn [app] in Heq. apply in_app_or in Heq. destruct Heq as [Hyl|Hyr].
      * apply Hmax. exact Hyl.
      * destruct rt; [destruct Hyr|discriminate].
    + assert (prefix y (S r1) <= prefix k (S r1)) by (apply prefix_le; lia).
      assert (y < key x); [|lia].
      apply (prefix_lt _ _ (S r1)). lia.
Qed.

Lemma search_right_missing_returns_predecessor_witness :
  built trie_1_3 [3; 1] /\ is_ikey (2 ^ 31)
  /\ exact_descent (2 ^ 31) (root trie_1_3) top_mask (root trie_1_3) top_mask
  /\ has_children (root trie_1_3) = true
  /\ required (2 ^ 31) top_mask = SideRight
  /\ is_null (child SideRight (root trie_1_3)) = true
  /\ exists x,
       ibt_search trie_1_3 (2 ^ 31) = Returned (Some x) trie_1_3
       /\ In (key x) [3; 1]
       /\ key x < 2 ^ 31
       /\ forall y, In y [3; 1] -> y < 2 ^ 31 -> y <= key x.
Proof.
  split; [exact built_trie_1_3|].
  split; [unfold is_ikey, UINT_BITS; split; [discriminate|reflexivity]|].
  split; [constructor|]. split; [reflexivity|]. split; [reflexivity|].
  split; [reflexivity|].
  apply (search_right_missing_returns_predecessor trie_1_3 [3; 1] (2 ^ 31)
           (root trie_1_3) top_mask).
  - exact built_trie_1_3.
  - unfold is_ikey, UINT_BITS. split; [discriminate|reflexivity].
  - constructor.
  - reflexivity.
  - reflexivity.
  - reflexivity.
Defined.

Lemma search_zero_leftmost (n : Node) :
  forall m, ibt_search_rec n 0 m = ibt_closest_match_rec n "l".
Proof.
  induction n as [|e l IHl r IHr]; intros m; [reflexivity|].
  cbn [ibt_search_rec ibt_closest_match_rec Ascii.eqb Bool.eqb].
  rewrite Z.land_0_l. cbn [Z.eqb].
  destruct (is_null l && is_null r); [reflexivity|].
  destruct (is_null l); cbn [negb]; [reflexivity|apply IHl].
Qed.

Lemma search_ones_rightmost (n : Node) :
  forall r p, wf r p n -> (r <= 32)%nat ->
    ibt_search_rec n (2 ^ 32 - 1) (mask_of r) = ibt_closest_match_rec n "r".
Proof.
  induction n as [|e l IHl rt IHrt]; intros r p Hwf Hr; [reflexivity|].
  cbn [ibt_search_rec ibt_closest_match_rec Ascii.eqb Bool.eqb].
  destruct (is_null l && is_null rt) eqn:E; [reflexivity|].
  destruct (wf_branch_inv _ _ _ _ _ Hwf E) as (-> & r' & -> & Hl & Hrt).
  rewrite land_mask_zero, mask_of_shiftr.
  change (2 ^ 32 - 1) with (Z.ones 32). rewrite Z.ones_spec_low by lia.
  cbn [negb]. destruct (is_null rt); cbn [negb]; [reflexivity|].
  change (Z.ones 32) with (2 ^ 32 - 1). apply (IHrt _ _ Hrt). lia.
Qed.

(** X9: on a non-empty built trie a search for key 0 returns the Entry
    with the smallest stored key, and a search for key 0xFFFFFFFF (the
    value [convert_query] falls back to) returns the Entry with the
    largest stored key. *)
Theorem search_extreme_keys (t : Trie_s) (ks : list ikey_t) :
  built t ks -> is_null (root t) = false ->
  exists lo hi,
    ibt_search t 0 = Returned (Some lo) t
    /\ ibt_search t (2 ^ 32 - 1) = Returned (Some hi) t
    /\ In (key lo) ks /\ In (key hi) ks
    /\ forall y, In y ks -> key lo <= y <= key hi.
Proof.
  intros Hb Hn. apply built_inv in Hb. destruct Hb as [Hwf _ Hkeys _ _].
  destruct (closest_left_min _ _ _ Hwf Hn) as (lo & Hlo & Hinlo & Hmin).
  destruct (closest_right_max _ _ _ Hwf Hn) as (hi & Hhi & Hinhi & Hmax).
  exists lo, hi. unfold ibt_search. rewrite Hn, top_mask_eq.
  rewrite search_zero_leftmost, Hlo.
  rewrite (search_ones_rightmost _ _ _ Hwf (Nat.le_refl _)), Hhi.
  splits; auto.
  - apply Hkeys. unfold keys. apply in_map. exact Hinlo.
  - apply Hkeys. unfold keys. apply in_map. exact Hinhi.
  - intros y Hy. apply Hkeys in Hy. split; auto.
Qed.

Lemma search_extreme_keys_witness :
  built trie_1_3 [3; 1] /\ is_null (root trie_1_3) = false
  /\ exists lo hi,
       ibt_search trie_1_3 0 = Returned (Some lo) trie_1_3
       /\ ibt_search trie_1_3 (2 ^ 32 - 1) = Returned (Some hi) trie_1_3
       /\ In (key lo) [3; 1] /\ In (key hi) [3; 1]
       /\ forall y, In y [3; 1] -> key lo <= y <= key hi.
Proof.
  split; [exact built_trie_1_3|]. split; [reflexivity|].
  apply (search_extreme_keys trie_1_3 [3; 1]).
  - exact built_trie_1_3.
  - reflexivity.
Defined.

(** ** Destruction *)

Lemma deleted_entries_app (l1 l2 : list event) :
  deleted_entries (l1 ++ l2) = deleted_entries l1 ++ deleted_entries l2.
Proof.
  induction l1 as [|ev l1 IH]; [reflexivity|].
  destruct ev; cbn [app deleted_entries]; rewrite IH; reflexivity.
Qed.

Lemma freed_entries_app (l1 l2 : list event) :
  freed_entries (l1 ++ l2) = freed_entries l1 ++ freed_entries l2.
Proof.
  induction l1 as [|ev l1 IH]; [reflexivity|].
  destruct ev; cbn [app freed_entries]; rewrite IH; reflexivity.
Qed.

Lemma freed_nodes_app (l1 l2 : list event) :
  freed_nodes (l1 ++ l2) = (freed_nodes l1 + freed_nodes l2)%nat.
Proof.
  induction l1 as [|ev l1 IH]; [reflexivity|].
  destruct ev; cbn [app freed_nodes]; rewrite IH; reflexivity.
Qed.

Lemma destroy_rec_freed_nodes (t : Trie_s) (n : Node) :
  freed_nodes (ibt_destroy_rec t n) = count_nodes n.
Proof.
  induction n as [|e l IHl r IHr]; [reflexivity|].
  cbn [ibt_destroy_rec count_nodes]. rewrite !freed_nodes_app, IHl, IHr.
  unfold ibt_delete_value. destruct e; [destruct (ibt_delete_entry t)|];
    cbn; lia.
Qed.

Lemma destroy_rec_entries (t : Trie_s) (n : Node) :
  shape_ok n ->
  freed_entries (ibt_destroy_rec t n) = entries n
  /\ deleted_entries (ibt_destroy_rec t n)
     = match ibt_delete_entry t with
       | Some f => map (fun x => (f, Some x)) (entries n)
       | None => []
       end.
Proof.
  induction n as [|e l IHl r IHr]; intros Hok.
  - cbn. destruct (ibt_delete_entry t); auto.
  - cbn [shape_ok] in Hok. destruct Hok as (He & Hl & Hr).
    destruct (IHl Hl) as [Fl Dl]. destruct (IHr Hr) as [Fr Dr].
    cbn [ibt_destroy_rec entries].
    rewrite !freed_entries_app, !deleted_entries_app, Fl, Fr, Dl, Dr.
    destruct (is_null l && is_null r) eqn:E.
    + apply andb_prop in E. destruct E as [El Er].
      destruct l; [|discriminate]. destruct r; [|discriminate].
      destruct e as [x|]; [|congruence].
      unfold ibt_delete_value. destruct (ibt_delete_entry t); cbn; auto.
    + subst e. unfold ibt_delete_value. cbn [freed_entries deleted_entries].
      rewrite !app_nil_r. cbn [app]. split; [reflexivity|].
      destruct (ibt_delete_entry t); [|reflexivity].
      rewrite map_app. reflexivity.
Qed.

(** X10: destroying a built trie hands every stored Entry exactly once to
    the disposal callback, in ascending key order and only if a callback
    was given; it frees every stored Entry once and as many nodes as the
    trie counts, and last the trie.  The stored Entries are one per
    inserted key, however often a key was inserted. *)
Theorem destroy_releases_every_entry_once (t : Trie_s) (ks : list ikey_t) :
  built t ks ->
  deleted_entries (ibt_destroy t)
  = match ibt_delete_entry t with
    | Some f => map (fun x => (f, Some x)) (entries (root t))
    | None => []
    end
  /\ freed_entries (ibt_destroy t) = entries (root t)
  /\ Z.of_nat (freed_nodes (ibt_destroy t)) = num_nodes t
  /\ last (ibt_destroy t) EvFreeNode = EvFreeTrie
  /\ NoDup (entries (root t))
  /\ StronglySorted Z.lt (map key (entries (root t)))
  /\ (forall k, In k (map key (entries (root t))) <-> In k ks).
Proof.
  intros Hb. apply built_inv in Hb. destruct Hb as [Hwf Hnum Hkeys _ _].
  destruct (destroy_rec_entries t (root t) (wf_shape_ok _ _ _ Hwf)) as [Hf Hd].
  pose proof (wf_sorted _ _ _ Hwf) as Hsorted.
  unfold ibt_destroy.
  rewrite deleted_entries_app, freed_entries_app, freed_nodes_app, Hf, Hd,
    destroy_rec_freed_nodes, Hnum.
  cbn [deleted_entries freed_entries freed_nodes]. rewrite !app_nil_r.
  splits; auto.
  - apply last_last.
  - apply sorted_keys_NoDup. exact Hsorted.
Qed.

Lemma destroy_releases_every_entry_once_witness :
  built trie_1_3 [3; 1]
  /\ deleted_entries (ibt_destroy trie_1_3)
     = match ibt_delete_entry trie_1_3 with
       | Some f => map (fun x => (f, Some x)) (entries (root trie_1_3))
       | None => []
       end
  /\ freed_entries (ibt_destroy trie_1_3) = entries (root trie_1_3)
  /\ Z.of_nat (freed_nodes (ibt_destroy trie_1_3)) = num_nodes trie_1_3
  /\ last (ibt_destroy trie_1_3) EvFreeNode = EvFreeTrie
  /\ NoDup (entries (root trie_1_3))
  /\ StronglySorted Z.lt (map key (entries (root trie_1_3)))
  /\ (forall k, In k (map key (entries (root trie_1_3))) <-> In k [3; 1]).
Proof.
  split; [exact built_trie_1_3|].
  apply (destroy_releases_every_entry_once trie_1_3 [3; 1]).
  exact built_trie_1_3.
Defined.

(** ** The shape of the tree *)

Lemma wf_nonnull_entries (n : Node) :
  forall r p, wf r p n -> is_null n = false ->
    (1 <= List.length (entries n))%nat.
Proof.
  induction n as [|e l IHl rt IHrt]; intros r p H Hn; [discriminate|].
  cbn [entries]. rewrite !length_app.
  destruct (is_null l && is_null rt) eqn:E.
  - destruct (wf_leaf_inv _ _ _ _ _ H E) as (-> & -> & x & -> & _). cbn. lia.
  - destruct (wf_branch_inv _ _ _ _ _ H E) as (-> & r' & -> & Hl & Hr).
    apply andb_false_iff in E. destruct E as [E|E].
    + specialize (IHl _ _ Hl E). lia.
    + specialize (IHrt _ _ Hr E). lia.
Qed.

Lemma make_branch_full (fuel : nat) :
  forall (k1 k2 mask : ikey_t) (v1 : ival_t) (x2 : Entry_s) (nc bh : size_t)
         (n' : Node) (nc' bh' : size_t),
    ibt_make_branch fuel (Node_s None NULL NULL) k1 k2 mask v1 (Some x2) nc bh
    = Done (n', nc', bh') ->
    full n' /\ List.length (entries n') = 2%nat.
Proof.
  induction fuel as [|fuel IH]; intros k1 k2 mask v1 x2 nc bh n' nc' bh' H;
    [discriminate|].
  cbn [ibt_make_branch] in H.
  destruct (Z.land k1 mask =? Z.land k2 mask).
  - destruct (Z.land k1 mask =? 0);
      match type of H with
      | bind ?m _ = _ => destruct m as [[[sub a] b]| |] eqn:E; try discriminate
      end;
      cbn [bind] in H; injection H as <- _ _;
      apply IH in E; destruct E as [Hfull Hlen];
      cbn [full entries]; rewrite ?length_app, ?app_nil_r, ?Hlen; cbn;
      splits; auto.
  - destruct (Z.land k1 mask =? 0); injection H as <- _ _; cbn;
      splits; auto; discriminate.
Qed.

Lemma insert_iter_result (n : Node) (r fuel : nat) (p : Z) (k : ikey_t)
    (v : ival_t) (nn bh : size_t) (n' : Node) (nn' bh' : size_t) :
  wf r p n -> is_null n = false -> prefix k r = p -> (r <= fuel)%nat ->
  ibt_insert_iter fuel n k (mask_of r) v nn bh = Done (n', nn', bh') ->
  wf r p n' /\ is_null n' = false
  /\ (List.length (entries n) <= List.length (entries n'))%nat.
Proof.
  intros Hwf Hnn Hk Hf Hrun.
  destruct (insert_iter_spec n r fuel p k v nn bh Hwf Hnn Hk Hf)
    as (n0 & nn0 & bh0 & Hrun0 & Hwf0 & Hnn0 & Hcase).
  rewrite Hrun0 in Hrun. injection Hrun as <- _ _. splits; auto.
  destruct Hcase as [(_ & -> & _)|(_ & Hperm & _)]; [lia|].
  rewrite (Permutation_length Hperm). cbn. lia.
Qed.

Lemma insert_iter_full (n : Node) :
  forall (r fuel : nat) (p : Z) (k : ikey_t) (v : ival_t) (nn bh : size_t)
         (n' : Node) (nn' bh' : size_t),
    wf r p n -> full n -> is_null n = false -> prefix k r = p ->
    (r <= fuel)%nat ->
    ibt_insert_iter fuel n k (mask_of r) v nn bh = Done (n', nn', bh') ->
    full n'.
Proof.
  induction n as [|e l IHl rt IHrt];
    intros r fuel p k v nn bh n' nn' bh' Hwf Hfull Hnn Hk Hf Hrun;
    [discriminate|].
  pose proof Hrun as Hrun0.
  cbn [ibt_insert_iter] in Hrun. rewrite (andb_comm (is_null rt)) in Hrun.
  destruct (is_null l && is_null rt) eqn:E.
  - destruct (wf_leaf_inv _ _ _ _ _ Hwf E) as (-> & -> & x & -> & Hx).
    destruct (Z.eqb_spec k (key x)) as [Heq|Hne]; cbn [negb] in Hrun.
    + injection Hrun as <- _ _. exact Hfull.
    + apply make_branch_full in Hrun. tauto.
  - destruct (wf_branch_inv _ _ _ _ _ Hwf E) as (-> & r' & -> & Hl & Hr).
    destruct (insert_iter_result _ _ _ _ _ _ _ _ _ _ _ Hwf Hnn Hk Hf Hrun0)
      as (_ & _ & Hlen).
    cbn [full] in Hfull. destruct Hfull as (Hcnt & Hfl & Hfr).
    specialize (Hcnt E).
    rewrite land_mask_zero, mask_of_shiftr in Hrun.
    pose proof (prefix_step k r') as Hstep. rewrite Hk in Hstep.
    destruct (Z.testbit k (Z.of_nat r')) eqn:B; cbn [negb Z.b2z] in *.
    + destruct rt as [|er rl rr].
      * injection Hrun as <- _ _. cbn [full]. splits; auto.
        -- intros _. lia.
        -- cbn. splits; auto. discriminate.
      * match type of Hrun with
        | bind ?m _ = _ => destruct m as [[[sub a] b]| |] eqn:Erun;
                             try discriminate
        end.
        cbn [bind] in Hrun. injection Hrun as <- _ _.
        cbn [full]. splits; auto.
        -- intros _. lia.
        -- apply (IHrt r' fuel (2 * p + 1) k v nn (wrapsz (bh + 1)) sub a b);
             auto. lia.
    + destruct l as [|el ll lr].
      * injection Hrun as <- _ _. cbn [full]. splits; auto.
        -- intros _. lia.
        -- cbn. splits; auto. discriminate.
      * match type of Hrun with
        | bind ?m _ = _ => destruct m as [[[sub a] b]| |] eqn:Erun;
                             try discriminate
        end.
        cbn [bind] in Hrun. injection Hrun as <- _ _.
        cbn [full]. splits; auto.
        -- intros _. lia.
        -- apply (IHl r' fuel (2 * p) k v nn (wrapsz (bh + 1)) sub a b);
             auto; lia.
Qed.

Lemma built_full (t : Trie_s) (ks : list ikey_t) : built t ks -> full (root t).
Proof.
  induction 1 as [sf df|t t' ks fuel k v Hb IH Hk Hins]; [exact I|].
  pose proof (built_inv _ _ Hb) as [Hwf _ _ _ _].
  apply (insert_fuel_mono fuel (Nat.max fuel 32)) in Hins; [|apply Nat.le_max_l].
  unfold ibt_insert in Hins. destruct (is_null (root t)) eqn:En.
  - injection Hins as <-. cbn. splits; auto. discriminate.
  - rewrite top_mask_eq in Hins.
    match type of Hins with
    | bind ?m _ = _ => destruct m as [[[n' a] b]| |] eqn:Erun; try discriminate
    end.
    cbn [bind] in Hins. injection Hins as <-. cbn [root].
    apply (insert_iter_full (root t) 32 (Nat.max fuel 32) 0 k v
             (num_nodes t) 1 n' a b); auto.
    + apply prefix_ikey. exact Hk.
    + apply Nat.le_max_r.
Qed.

Lemma sorted_same_members (l1 : list Z) :
  forall l2, StronglySorted Z.lt l1 -> StronglySorted Z.lt l2 ->
    (forall k, In k l1 <-> In k l2) -> l1 = l2.
Proof.
  induction l1 as [|a l1 IH]; intros l2 H1 H2 Hmem.
  - destruct l2 as [|b l2]; [reflexivity|].
    destruct (proj2 (Hmem b) (or_introl eq_refl)).
  - destruct l2 as [|b l2]; [destruct (proj1 (Hmem a) (or_introl eq_refl))|].
    inversion H1 as [|? ? Hs1 Hf1]; subst.
    inversion H2 as [|? ? Hs2 Hf2]; subst.
    rewrite Forall_forall in Hf1, Hf2.
    assert (a = b).
    { destruct (proj1 (Hmem a) (or_introl eq_refl)) as [E|Ha]; [auto|].
      destruct (proj2 (Hmem b) (or_introl eq_refl)) as [E|Hb]; [auto|].
      specialize (Hf1 _ Hb). specialize (Hf2 _ Ha). lia. }
    subst b. f_equal. apply IH; auto. intros k. split; intros Hk.
    + destruct (proj1 (Hmem k) (or_intror Hk)) as [E|H]; [|exact H].
      specialize (Hf1 _ Hk). lia.
    + destruct (proj2 (Hmem k) (or_intror Hk)) as [E|H]; [|exact H].
      specialize (Hf2 _ Hk). lia.
Qed.

Lemma app_split_by (P : Z -> Prop) (l1 : list Z) :
  forall l2 r1 r2,
    (forall x, In x l1 -> P x) -> (forall x, In x l2 -> P x) ->
    (forall x, In x r1 -> ~ P x) -> (forall x, In x r2 -> ~ P x) ->
    l1 ++ r1 = l2 ++ r2 -> l1 = l2 /\ r1 = r2.
Proof.
  induction l1 as [|a l1 IH]; intros l2 r1 r2 Hl1 Hl2 Hr1 Hr2 Heq.
  - destruct l2 as [|b l2]; [auto|]. cbn [app] in Heq. subst r1.
    exfalso. apply (Hr1 b); [left; reflexivity|]. apply Hl2. left. reflexivity.
  - destruct l2 as [|b l2]; cbn [app] in Heq.
    + subst r2. exfalso. apply (Hr2 a); [left; reflexivity|].
      apply Hl1. left. reflexivity.
    + injection Heq as -> Heq.
      destruct (IH l2 r1 r2) as [-> ->]; auto.
      * intros x Hx. apply Hl1. right. exact Hx.
      * intros x Hx. apply Hl2. right. exact Hx.
Qed.

Lemma keys_length (n : Node) : List.length (keys n) = List.length (entries n).
Proof. unfold keys. apply length_map. Qed.

(** Two well-formed, full subtrees at the same place with the same keys
    have the same nodes. *)
Lemma canonical_shape (n1 : Node) :
  forall n2 r p,
    wf r p n1 -> wf r p n2 -> full n1 -> full n2 ->
    keys n1 = keys n2 -> skeleton n1 = skeleton n2.
Proof.
  induction n1 as [|e1 l1 IHl r1 IHr]; intros n2 r p Hwf1 Hwf2 Hf1 Hf2 Hkeys.
  - destruct n2 as [|e2 l2 r2]; [reflexivity|].
    pose proof (wf_nonnull_entries _ _ _ Hwf2 eq_refl) as Hlen.
    rewrite <- keys_length, <- Hkeys in Hlen. cbn in Hlen. lia.
  - destruct n2 as [|e2 l2 r2].
    + pose proof (wf_nonnull_entries _ _ _ Hwf1 eq_refl) as Hlen.
      rewrite <- keys_length, Hkeys in Hlen. cbn in Hlen. lia.
    + pose proof (f_equal (@List.length Z) Hkeys) as Hlen.
      rewrite !keys_length in Hlen.
      destruct (is_null l1 && is_null r1) eqn:E1,
               (is_null l2 && is_null r2) eqn:E2.
      * destruct (wf_leaf_inv _ _ _ _ _ Hwf1 E1) as (-> & -> & x1 & -> & _).
        destruct (wf_leaf_inv _ _ _ _ _ Hwf2 E2) as (-> & -> & x2 & -> & _).
        rewrite !keys_node in Hkeys. cbn in Hkeys. injection Hkeys as Hk.
        cbn [skeleton]. rewrite Hk. reflexivity.
      * destruct (wf_leaf_inv _ _ _ _ _ Hwf1 E1) as (-> & -> & x1 & -> & _).
        cbn [full] in Hf2. destruct Hf2 as (Hc & _). specialize (Hc E2).
        change (List.length (entries (Node_s (Some x1) NULL NULL)))
          with 1%nat in Hlen. lia.
      * destruct (wf_leaf_inv _ _ _ _ _ Hwf2 E2) as (-> & -> & x2 & -> & _).
        cbn [full] in Hf1. destruct Hf1 as (Hc & _). specialize (Hc E1).
        change (List.length (entries (Node_s (Some x2) NULL NULL)))
          with 1%nat in Hlen. lia.
      * destruct (wf_branch_inv _ _ _ _ _ Hwf1 E1) as (-> & r' & -> & Hl1 & Hr1).
        destruct (wf_branch_inv _ _ _ _ _ Hwf2 E2) as (-> & r'' & Hr'' & Hl2 & Hr2).
        injection Hr'' as <-.
        cbn [full] in Hf1, Hf2.
        destruct Hf1 as (_ & Hfl1 & Hfr1). destruct Hf2 as (_ & Hfl2 & Hfr2).
        rewrite !keys_node in Hkeys. cbn [app] in Hkeys.
        destruct (app_split_by (fun y => prefix y r' = 2 * p)
                    (keys l1) (keys l2) (keys r1) (keys r2)) as [Hkl Hkr]; auto.
        -- intros y Hy. exact (wf_prefix _ _ _ _ Hl1 Hy).
        -- intros y Hy. exact (wf_prefix _ _ _ _ Hl2 Hy).
        -- intros y Hy. pose proof (wf_prefix _ _ _ _ Hr1 Hy). lia.
        -- intros y Hy. pose proof (wf_prefix _ _ _ _ Hr2 Hy). lia.
        -- cbn [skeleton]. rewrite (IHl l2 _ _ Hl1 Hl2 Hfl1 Hfl2 Hkl).
           rewrite (IHr r2 _ _ Hr1 Hr2 Hfr1 Hfr2 Hkr). reflexivity.
Qed.

Lemma skeleton_measures (n : Node) :
  tree_height (skeleton n) = tree_height n
  /\ count_nodes (skeleton n) = count_nodes n
  /\ keys (skeleton n) = keys n.
Proof.
  induction n as [|e l (Hl1 & Hl2 & Hl3) r (Hr1 & Hr2 & Hr3)]; [auto|].
  cbn [skeleton tree_height count_nodes]. rewrite Hl1, Hl2, Hr1, Hr2.
  splits; auto. rewrite !keys_node, Hl3, Hr3. destruct e; reflexivity.
Qed.

(** X11: the nodes of a built trie depend only on the set of keys that
    were inserted, not on their order, their values or their repetition:
    two built tries with the same key set have the same tree up to the
    values, the same height and the same count of created nodes. *)
Theorem shape_depends_only_on_key_set (t1 t2 : Trie_s) (ks1 ks2 : list ikey_t) :
  built t1 ks1 -> built t2 ks2 ->
  (forall k, In k ks1 <-> In k ks2) ->
  skeleton (root t1) = skeleton (root t2)
  /\ ibt_height t1 = ibt_height t2
  /\ num_nodes t1 = num_nodes t2.
Proof.
  intros Hb1 Hb2 Hmem.
  pose proof (built_full _ _ Hb1) as Hf1. pose proof (built_full _ _ Hb2) as Hf2.
  pose proof (built_height _ _ Hb1) as Hh1.
  pose proof (built_height _ _ Hb2) as Hh2.
  apply built_inv in Hb1. apply built_inv in Hb2.
  destruct Hb1 as [Hwf1 Hn1 Hk1 _ _]. destruct Hb2 as [Hwf2 Hn2 Hk2 _ _].
  assert (Hkeys : keys (root t1) = keys (root t2)).
  { apply sorted_same_members.
    - exact (wf_sorted _ _ _ Hwf1).
    - exact (wf_sorted _ _ _ Hwf2).
    - intros k. rewrite Hk1, Hk2. apply Hmem. }
  pose proof (canonical_shape _ _ _ _ Hwf1 Hwf2 Hf1 Hf2 Hkeys) as Hsk.
  destruct (skeleton_measures (root t1)) as (Ha1 & Hc1 & _).
  destruct (skeleton_measures (root t2)) as (Ha2 & Hc2 & _).
  unfold ibt_height. rewrite Hh1, Hh2, Hn1, Hn2, <- Ha1, <- Ha2, <- Hc1, <- Hc2, Hsk.
  auto.
Qed.

Lemma built_trie_3_1_3 : built trie_3_1_3 [3; 1; 3].
Proof.
  apply (insert_all_built 32 [(3, 7); (1, 8); (3, 9)]
           (ibt_create None None) trie_3_1_3 []).
  - constructor.
  - repeat constructor; unfold is_ikey, UINT_BITS; cbn; lia.
  - vm_compute. reflexivity.
Qed.

Lemma shape_depends_only_on_key_set_witness :
  built trie_1_3 [3; 1] /\ built trie_3_1_3 [3; 1; 3]
  /\ (forall k, In k [3; 1] <-> In k [3; 1; 3])
  /\ skeleton (root trie_1_3) = skeleton (root trie_3_1_3)
  /\ ibt_height trie_1_3 = ibt_height trie_3_1_3
  /\ num_nodes trie_1_3 = num_nodes trie_3_1_3.
Proof.
  assert (H : forall k, In k [3; 1] <-> In k [3; 1; 3]) by (cbn; tauto).
  split; [exact built_trie_1_3|]. split; [exact built_trie_3_1_3|].
  split; [exact H|].
  apply (shape_depends_only_on_key_set trie_1_3 trie_3_1_3 [3; 1] [3; 1; 3]).
  - exact built_trie_1_3.
  - exact built_trie_3_1_3.
  - exact H.
Defined.

(** ** Addresses in dotted form *)

Lemma wrap32_lor (a b : Z) : wrap32 (Z.lor a b) = Z.lor (wrap32 a) (wrap32 b).
Proof.
  unfold wrap32, UINT_BITS. rewrite <- !Z.land_ones by lia.
  apply Z.land_lor_distr_l.
Qed.

Lemma wrap32_wrap_int (z : Z) : wrap32 (wrap_int z) = wrap32 z.
Proof.
  unfold wrap32, wrap_int, UINT_BITS.
  rewrite Zminus_mod_idemp_l. f_equal. lia.
Qed.

Lemma wrap32_small (z : Z) : 0 <= z < 2 ^ 32 -> wrap32 z = z.
Proof. intros H. unfold wrap32, UINT_BITS. apply Z.mod_small. exact H. Qed.

Lemma lor_disjoint (x y n : Z) :
  0 <= n -> 0 <= y < 2 ^ n -> Z.lor (x * 2 ^ n) y = x * 2 ^ n + y.
Proof.
  intros Hn Hy.
  assert (Hland : Z.land (x * 2 ^ n) y = 0).
  { apply Z.bits_inj'. intros i Hi. rewrite Z.land_spec, Z.bits_0.
    destruct (Z.lt_ge_cases i n) as [Hlt|Hge].
    - rewrite Z.mul_pow2_bits_low by lia. reflexivity.
    - rewrite <- (Z.mod_small y (2 ^ n)) by lia.
      rewrite Z.mod_pow2_bits_high by lia. apply andb_false_r. }
  rewrite <- Z.lxor_lor by exact Hland.
  symmetry. apply Z.add_nocarry_lxor. exact Hland.
Qed.

(** The key of a dotted address is its big-endian value. *)
Lemma ipv4_to_num_value (a b c d : Z) :
  is_byte a -> is_byte b -> is_byte c -> is_byte d ->
  ipv4_to_num (a, b, c, d) = a * 2 ^ 24 + b * 2 ^ 16 + c * 2 ^ 8 + d.
Proof.
  unfold is_byte. change (2 ^ BITSPERBYTE) with 256. intros Ha Hb Hc Hd.
  unfold ipv4_to_num.
  change (BITSPERBYTE * 3) with 24. change (BITSPERBYTE * 2) with 16.
  change BITSPERBYTE with 8.
  rewrite !Z.shiftl_mul_pow2 by lia.
  rewrite !wrap32_lor, !wrap32_wrap_int.
  rewrite !wrap32_small by lia.
  rewrite (lor_disjoint a (b * 2 ^ 16) 24) by lia.
  replace (a * 2 ^ 24 + b * 2 ^ 16) with ((a * 2 ^ 8 + b) * 2 ^ 16) by lia.
  rewrite (lor_disjoint _ (c * 2 ^ 8) 16) by lia.
  replace ((a * 2 ^ 8 + b) * 2 ^ 16 + c * 2 ^ 8)
    with ((a * 2 ^ 16 + b * 2 ^ 8 + c) * 2 ^ 8) by lia.
  rewrite (lor_disjoint _ d 8) by lia. lia.
Qed.

Lemma extract_byte (hi b lo k : Z) :
  0 <= k -> 0 <= lo < 2 ^ k -> 0 <= b < 256 ->
  wrap_uchar (Z.land (Z.shiftr ((hi * 256 + b) * 2 ^ k + lo) k)
                (wrap32 (RADIX - 1)))
  = b.
Proof.
  intros Hk Hlo Hb.
  change (wrap32 (RADIX - 1)) with (Z.ones 8).
  rewrite Z.land_ones by lia. unfold wrap_uchar.
  change (2 ^ BITSPERBYTE) with (2 ^ 8). rewrite Z.mod_mod by discriminate.
  rewrite Z.shiftr_div_pow2 by lia.
  assert (Hp : 0 < 2 ^ k) by (apply Z.pow_pos_nonneg; lia).
  rewrite Z.div_add_l by lia. rewrite (Z.div_small lo) by lia.
  rewrite Z.add_0_r. change (2 ^ 8) with 256.
  rewrite Z.add_comm, Z.mod_add by discriminate. apply Z.mod_small. exact Hb.
Qed.

Lemma string_length_app (s1 s2 : string) :
  String.length (s1 ++ s2) = (String.length s1 + String.length s2)%nat.
Proof. induction s1 as [|c s1 IH]; cbn; [reflexivity|]. rewrite IH. reflexivity. Qed.

Lemma fmt_byte_length (b : Z) :
  is_byte b -> (1 <= String.length (fmt_d b) <= 3)%nat.
Proof.
  unfold is_byte. change (2 ^ BITSPERBYTE) with 256. intros Hb.
  assert (Hall : forallb (fun n => let len := String.length (fmt_d (Z.of_nat n)) in
                            Nat.leb 1 len && Nat.leb len 3) (seq 0 256) = true)
    by (vm_compute; reflexivity).
  rewrite forallb_forall in Hall.
  specialize (Hall (Z.to_nat b)). rewrite Z2Nat.id in Hall by lia.
  cbv zeta in Hall.
  assert (Hin : In (Z.to_nat b) (seq 0 256)) by (apply in_seq; lia).
  apply Hall in Hin. apply andb_prop in Hin. destruct Hin as [H1 H2].
  apply Nat.leb_le in H1. apply Nat.leb_le in H2. lia.
Qed.

Lemma wrap_uchar_byte (z : Z) : is_byte (wrap_uchar z).
Proof. unfold is_byte, wrap_uchar. apply Z.mod_pos_bound. reflexivity. Qed.

(** X12: the key [ipv4_to_num] makes of four bytes is their big-endian
    32-bit value, and [num_to_ipv4] writes that key back as the same four
    bytes in the same order, in decimal and separated by dots; only for
    255.255.255.255 it writes INVALID instead. *)
Theorem ipv4_round_trip (a b c d : Z) :
  is_byte a -> is_byte b -> is_byte c -> is_byte d ->
  ipv4_to_num (a, b, c, d) = a * 2 ^ 24 + b * 2 ^ 16 + c * 2 ^ 8 + d
  /\ is_ikey (ipv4_to_num (a, b, c, d))
  /\ num_to_ipv4 (ipv4_to_num (a, b, c, d))
     = if (a =? 255) && (b =? 255) && (c =? 255) && (d =? 255)
       then "INVALID"%string
       else (fmt_d a ++ "." ++ fmt_d b ++ "." ++ fmt_d c ++ "." ++ fmt_d d)%string.
Proof.
  intros Ha Hb Hc Hd. rewrite (ipv4_to_num_value a b c d Ha Hb Hc Hd).
  unfold is_byte in *. change (2 ^ BITSPERBYTE) with 256 in *.
  splits; auto.
  - unfold is_ikey, UINT_BITS. lia.
  - unfold num_to_ipv4. change (wrap32 (-1)) with (2 ^ 32 - 1).
    destruct (Z.eqb_spec (a * 2 ^ 24 + b * 2 ^ 16 + c * 2 ^ 8 + d) (2 ^ 32 - 1))
      as [Hall|Hnot].
    + assert (a = 255 /\ b = 255 /\ c = 255 /\ d = 255) as (-> & -> & -> & ->)
        by lia.
      reflexivity.
    + assert (Hcond : (a =? 255) && (b =? 255) && (c =? 255) && (d =? 255) = false).
      { destruct (Z.eqb_spec a 255), (Z.eqb_spec b 255), (Z.eqb_spec c 255),
          (Z.eqb_spec d 255); try reflexivity. subst. exfalso. apply Hnot.
        reflexivity. }
      rewrite Hcond.
      change (BITSPERBYTE * 3) with 24. change (BITSPERBYTE * 2) with 16.
      change BITSPERBYTE with 8.
      set (num := a * 2 ^ 24 + b * 2 ^ 16 + c * 2 ^ 8 + d).
      assert (H0 : wrap_uchar (Z.land num (wrap32 (RADIX - 1))) = d).
      { rewrite <- (Z.shiftr_0_r num).
        replace num with (((a * 2 ^ 16 + b * 2 ^ 8 + c) * 256 + d) * 2 ^ 0 + 0)
          by (unfold num; lia).
        apply extract_byte; lia. }
      assert (H1 : wrap_uchar (Z.land (Z.shiftr num 8) (wrap32 (RADIX - 1))) = c).
      { replace num with (((a * 2 ^ 8 + b) * 256 + c) * 2 ^ 8 + d)
          by (unfold num; lia).
        apply extract_byte; lia. }
      assert (H2 : wrap_uchar (Z.land (Z.shiftr num 16) (wrap32 (RADIX - 1))) = b).
      { replace num with ((a * 256 + b) * 2 ^ 16 + (c * 2 ^ 8 + d))
          by (unfold num; lia).
        apply extract_byte; lia. }
      assert (H3 : wrap_uchar (Z.land (Z.shiftr num 24) (wrap32 (RADIX - 1))) = a).
      { replace num with ((0 * 256 + a) * 2 ^ 24 + (b * 2 ^ 16 + c * 2 ^ 8 + d))
          by (unfold num; lia).
        apply extract_byte; lia. }
      rewrite H0, H1, H2, H3. reflexivity.
Qed.

Lemma ipv4_round_trip_witness :
  is_byte 192 /\ is_byte 168 /\ is_byte 0 /\ is_byte 1
  /\ ipv4_to_num (192, 168, 0, 1) = 192 * 2 ^ 24 + 168 * 2 ^ 16 + 0 * 2 ^ 8 + 1
  /\ is_ikey (ipv4_to_num (192, 168, 0, 1))
  /\ num_to_ipv4 (ipv4_to_num (192, 168, 0, 1))
     = if (192 =? 255) && (168 =? 255) && (0 =? 255) && (1 =? 255)
       then "INVALID"%string
       else (fmt_d 192 ++ "." ++ fmt_d 168 ++ "." ++ fmt_d 0 ++ "." ++ fmt_d 1)%string.
Proof.
  assert (H : forall b, 0 <= b < 256 -> is_byte b)
    by (intros b Hb; unfold is_byte; change (2 ^ BITSPERBYTE) with 256; exact Hb).
  split; [apply H; lia|]. split; [apply H; lia|]. split; [apply H; lia|].
  split; [apply H; lia|].
  apply (ipv4_round_trip 192 168 0 1); apply H; lia.
Defined.

(** X13: the text [num_to_ipv4] writes is at least 7 and at most 15
    characters long, so with its terminator it fits the [IPV4STR + 1]
    bytes allocated for it. *)
Theorem num_to_ipv4_fits_buffer (num : ikey_t) :
  (7 <= String.length (num_to_ipv4 num))%nat
  /\ Z.of_nat (String.length (num_to_ipv4 num)) + 1 <= IPV4STR + 1.
Proof.
  unfold num_to_ipv4, IPV4STR. destruct (num =? wrap32 (-1)).
  - cbn. lia.
  - cbv zeta. rewrite !string_length_app.
    change (String.length ".") with 1%nat.
    repeat match goal with
           | |- context [String.length (fmt_d (wrap_uchar ?z))] =>
               let H := fresh "H" in
               pose proof (fmt_byte_length _ (wrap_uchar_byte z)) as H;
               generalize dependent (String.length (fmt_d (wrap_uchar z)))
           end.
    intros. lia.
Qed.

(** ** Queries *)

Lemma search_any (t : Trie_s) (ks : list ikey_t) (k : ikey_t) :
  built t ks -> is_null (root t) = false ->
  exists x, ibt_search t k = Returned (Some x) t /\ In x (entries (root t)).
Proof.
  intros Hb Hn. apply built_inv in Hb. destruct Hb as [Hwf _ _ _ _].
  destruct (search_rec_leaf (root t) k top_mask (wf_shape_ok _ _ _ Hwf) Hn)
    as (x & Hx & Hin).
  exists x. unfold ibt_search. rewrite Hn, Hx. auto.
Qed.

Lemma search_uint_max (t : Trie_s) (ks : list ikey_t) :
  built t ks -> is_null (root t) = false ->
  exists x, ibt_search t UINT_MAX = Returned (Some x) t
            /\ In x (entries (root t))
            /\ forall y, In y ks -> y <= key x.
Proof.
  intros Hb Hn. apply built_inv in Hb. destruct Hb as [Hwf _ Hkeys _ _].
  destruct (closest_right_max _ _ _ Hwf Hn) as (hi & Hhi & Hinhi & Hmax).
  exists hi. unfold ibt_search, UINT_MAX. rewrite Hn, top_mask_eq.
  rewrite (search_ones_rightmost _ _ _ Hwf (Nat.le_refl _)), Hhi.
  splits; auto. intros y Hy. apply Hmax. apply Hkeys. exact Hy.
Qed.

(** X14: on a non-empty built trie [execute_query] always returns: it
    never takes its "query failure" exit, leaves the trie as it is, and
    hands exactly one Entry, one stored in the trie, to [ibt_show_value].
    For a number at the limit of [strtoll] it writes the out-of-range
    message and then still shows an Entry: the one with the largest stored
    key. *)
Theorem execute_query_shows_a_stored_entry (t : Trie_s) (ks : list ikey_t)
    (q : query) :
  built t ks -> is_null (root t) = false ->
  exists x,
    In x (entries (root t))
    /\ match q with
       | QueryNumber raw_num =>
           execute_query t q
           = Continues (fst (convert_query raw_num)
                        ++ map TrieEvent (ibt_show_value t (Some x))) t
           /\ ibt_search t (snd (convert_query raw_num)) = Returned (Some x) t
           /\ (raw_num = LLONG_MAX \/ raw_num = LLONG_MIN ->
               fst (convert_query raw_num) <> []
               /\ forall y, In y ks -> y <= key x)
       | QueryDotted bytes =>
           execute_query t q
           = Continues (map TrieEvent (ibt_show_value t (Some x))) t
           /\ ibt_search t (ipv4_to_num bytes) = Returned (Some x) t
       end.
Proof.
  intros Hb Hn. destruct q as [raw|bytes].
  - destruct (Z.eq_dec raw LLONG_MAX) as [Emax|Emax];
      [|destruct (Z.eq_dec raw LLONG_MIN) as [Emin|Emin]].
    + destruct (search_uint_max t ks Hb Hn) as (x & Hx & Hin & Hmax).
      exists x. split; [exact Hin|]. unfold execute_query, convert_query.
      subst raw. cbn [Z.eqb fst snd]. rewrite Z.eqb_refl. cbn [fst snd].
      rewrite Hx. splits; auto. intros _. split; [discriminate|exact Hmax].
    + destruct (search_uint_max t ks Hb Hn) as (x & Hx & Hin & Hmax).
      exists x. split; [exact Hin|]. unfold execute_query, convert_query.
      subst raw. change (LLONG_MIN =? LLONG_MAX) with false.
      rewrite Z.eqb_refl. cbn [fst snd].
      rewrite Hx. splits; auto. intros _. split; [discriminate|exact Hmax].
    + destruct (search_any t ks (wrap32 raw) Hb Hn) as (x & Hx & Hin).
      exists x. split; [exact Hin|]. unfold execute_query, convert_query.
      destruct (Z.eqb_spec raw LLONG_MAX); [contradiction|].
      destruct (Z.eqb_spec raw LLONG_MIN); [contradiction|].
      cbn [fst snd]. rewrite Hx. splits; auto. intros [H|H]; contradiction.
  - destruct (search_any t ks (ipv4_to_num bytes) Hb Hn) as (x & Hx & Hin).
    exists x. split; [exact Hin|]. unfold execute_query. rewrite Hx. auto.
Qed.

Lemma execute_query_shows_a_stored_entry_witness :
  built trie_1_3 [3; 1] /\ is_null (root trie_1_3) = false
  /\ exists x,
       In x (entries (root trie_1_3))
       /\ execute_query trie_1_3 (QueryNumber LLONG_MAX)
          = Continues (fst (convert_query LLONG_MAX)
                       ++ map TrieEvent (ibt_show_value trie_1_3 (Some x)))
              trie_1_3
       /\ ibt_search trie_1_3 (snd (convert_query LLONG_MAX))
          = Returned (Some x) trie_1_3
       /\ (LLONG_MAX = LLONG_MAX \/ LLONG_MAX = LLONG_MIN ->
           fst (convert_query LLONG_MAX) <> []
           /\ forall y, In y [3; 1] -> y <= key x).
Proof.
  split; [exact built_trie_1_3|]. split; [reflexivity|].
  apply (execute_query_shows_a_stored_entry trie_1_3 [3; 1]
           (QueryNumber LLONG_MAX)).
  - exact built_trie_1_3.
  - reflexivity.
Defined.

(** X15: [convert_query] reports only the two limits of [strtoll]; every
    other number it takes without a message and reduces modulo 2^32, so a
    number of the key range is kept and numbers 2^32 apart give the same
    key; the key it returns always fits the key type. *)
Theorem convert_query_wraps_silently (raw_num : Z) :
  LLONG_MIN <= raw_num <= LLONG_MAX ->
  is_ikey (snd (convert_query raw_num))
  /\ (0 <= raw_num < 2 ^ 32 -> convert_query raw_num = ([], raw_num))
  /\ (fst (convert_query raw_num) = [] <-> LLONG_MIN < raw_num < LLONG_MAX)
  /\ (LLONG_MIN < raw_num -> raw_num + 2 ^ 32 < LLONG_MAX ->
      convert_query (raw_num + 2 ^ 32) = convert_query raw_num).
Proof.
  intros Hr. unfold convert_query.
  assert (Hlim : LLONG_MIN < LLONG_MAX) by reflexivity.
  destruct (Z.eqb_spec raw_num LLONG_MAX) as [E1|E1];
    [|destruct (Z.eqb_spec raw_num LLONG_MIN) as [E2|E2]]; cbn [fst snd].
  - splits.
    + unfold is_ikey, UINT_MAX, UINT_BITS. lia.
    + intros H. subst raw_num. unfold LLONG_MAX in H. lia.
    + split; [discriminate|lia].
    + intros _ H. subst raw_num. lia.
  - splits.
    + unfold is_ikey, UINT_MAX, UINT_BITS. lia.
    + intros H. subst raw_num. unfold LLONG_MIN in H. lia.
    + split; [discriminate|lia].
    + intros H. lia.
  - splits.
    + unfold is_ikey, wrap32. apply Z.mod_pos_bound. reflexivity.
    + intros H. rewrite wrap32_small by exact H. reflexivity.
    + split; [lia|reflexivity].
    + intros H1 H2.
      destruct (Z.eqb_spec (raw_num + 2 ^ 32) LLONG_MAX); [lia|].
      destruct (Z.eqb_spec (raw_num + 2 ^ 32) LLONG_MIN); [lia|].
      f_equal. unfold wrap32, UINT_BITS.
      rewrite <- (Z.mul_1_l (2 ^ 32)) at 1. apply Z.mod_add. discriminate.
Qed.

Lemma convert_query_wraps_silently_witness :
  LLONG_MIN <= 4294967301 <= LLONG_MAX
  /\ is_ikey (snd (convert_query 4294967301))
  /\ (0 <= 4294967301 < 2 ^ 32 -> convert_query 4294967301 = ([], 4294967301))
  /\ (fst (convert_query 4294967301) = []
      <-> LLONG_MIN < 4294967301 < LLONG_MAX)
  /\ (LLONG_MIN < 4294967301 -> 4294967301 + 2 ^ 32 < LLONG_MAX ->
      convert_query (4294967301 + 2 ^ 32) = convert_query 4294967301).
Proof.
  assert (H : LLONG_MIN <= 4294967301 <= LLONG_MAX)
    by (unfold LLONG_MIN, LLONG_MAX; lia).
  split; [exact H|]. apply (convert_query_wraps_silently 4294967301). exact H.
Defined.

(** ** Reading the data *)








(** ** Remaining edge cases *)

(** X18: on a built trie without a display function [ibt_show] calls no
    callback and writes the no-display-function message once for every
    stored Entry, that is once for every distinct key inserted. *)
Theorem show_without_display_function (t : Trie_s) (ks : list ikey_t) :
  built t ks -> ibt_show_value_w t = None ->
  ibt_show t = repeat (EvStderr no_show_msg) (List.length (entries (root t)))
  /\ (forall k, In k (map key (entries (root t))) <-> In k ks)
  /\ NoDup (map key (entries (root t))).
Proof.
  intros Hb Hnone. apply built_inv in Hb. destruct Hb as [Hwf _ Hkeys _ _].
  splits; auto.
  - unfold ibt_show. rewrite show_rec_entries. unfold ibt_show_value.
    rewrite Hnone. induction (entries (root t)) as [|x es IH]; [reflexivity|].
    cbn [flat_map List.length repeat app]. rewrite IH. reflexivity.
  - apply sorted_NoDup. exact (wf_sorted _ _ _ Hwf).
Qed.

Lemma show_without_display_function_witness :
  built trie_3_1_3 [3; 1; 3] /\ ibt_show_value_w trie_3_1_3 = None
  /\ ibt_show trie_3_1_3
     = repeat (EvStderr no_show_msg) (List.length (entries (root trie_3_1_3)))
  /\ (forall k, In k (map key (entries (root trie_3_1_3))) <-> In k [3; 1; 3])
  /\ NoDup (map key (entries (root trie_3_1_3))).
Proof.
  split; [exact built_trie_3_1_3|]. split; [reflexivity|].
  apply (show_without_display_function trie_3_1_3 [3; 1; 3]).
  - exact built_trie_3_1_3.
  - reflexivity.
Defined.

(** X19: [ibt_make_branch] does not return when the two keys are equal:
    their bits never differ, so the loop adds nodes without end.  No
    amount of fuel makes the model return. *)
Theorem make_branch_equal_keys_never_returns (fuel : nat) :
  forall (node : Node) (k mask : ikey_t) (v1 : ival_t) (e2 : Entry)
         (nc bh : size_t) (res : Node * size_t * size_t),
    ibt_make_branch fuel node k k mask v1 e2 nc bh <> Done res.
Proof.
  induction fuel as [|fuel IH]; intros node k mask v1 e2 nc bh res;
    [discriminate|].
  cbn [ibt_make_branch]. destruct node as [|e l r]; [discriminate|].
  rewrite Z.eqb_refl.
  destruct (Z.land k mask =? 0);
    match goal with
    | |- bind ?m _ <> _ => destruct m as [[[sub a] b]| |] eqn:E
    end; try discriminate; exfalso; exact (IH _ _ _ _ _ _ _ _ E).
Qed.
